(** * groupcache: consistent-hash ring, packed timestamps, expiration, gRPC pool

    A shallow embedding of the parts of golang/groupcache (and the forks
    collected beside it) that the specification talks about:

    - [consistenthash.Map] with its prefix table (consistenthash.go),
    - the older ring that only binary-searches, with [GetN],
    - [packTimestamp] / [UnpackTimestamp] / [getTimestampByteView],
    - [Group.handleExpiration] (expiration.go),
    - the gRPC [Pool] ([Set], [PickPeer]).

    Conventions.  Go's [int] is taken to be 64 bits wide, so [int(uint32)]
    is the number itself and lies in [0, 2^32).  A Go [string] is a byte
    string and is modelled by [string]; a [[]byte] by [list Byte.byte].  A
    run-time panic is the outcome [Panics]; a loop whose termination is not
    syntactically evident runs on fuel and reports [NoFuel] when it is
    exhausted. *)

From stdpp Require Import base decidable option list gmap strings sorting.
From Stdlib Require Import ZArith Lia DecimalString.

Local Open Scope Z_scope.

(** ** Outcomes of partial code *)

Inductive outcome (A : Type) : Type :=
  | Done (a : A)
  | Panics
  | NoFuel.
Arguments Done {A} a.
Arguments Panics {A}.
Arguments NoFuel {A}.

Definition obind {A B} (x : outcome A) (f : A → outcome B) : outcome B :=
  match x with
  | Done a => f a
  | Panics => Panics
  | NoFuel => NoFuel
  end.

Notation "x ←! e1 ; e2" := (obind e1 (fun x => e2))
  (at level 100, e1 at next level, e2 at level 200, right associativity).

(** [s[i]] on a slice: a panic when [i] is out of range. *)
Definition index {A} (s : list A) (i : nat) : outcome A :=
  match s !! i with
  | Some x => Done x
  | None => Panics
  end.

(** [s[i] = v] on a slice: a panic when [i] is out of range. *)
Definition store {A} (s : list A) (i : nat) (v : A) : outcome (list A) :=
  if bool_decide (i < length s)%nat then Done (<[i:=v]> s) else Panics.

(** ** Machine integers *)

Definition uint32 (z : Z) : Z := z mod 2 ^ 32.

(** [bits.Len32]: the number of bits needed to write [x], 0 for 0. *)
Definition Len32 (x : Z) : Z := if x =? 0 then 0 else Z.log2 x + 1.

(** [strconv.Itoa] on the non-negative loop counter. *)
Definition Itoa (i : nat) : string := NilZero.string_of_uint (Nat.to_uint i).

(** ** [sort.Search] and [sort.Ints] *)

(** The loop of [sort.Search]: [for i < j { h := (i+j)/2; if !f(h) { i = h+1 }
    else { j = h } }], on fuel. *)
Fixpoint search_loop (fuel : nat) (f : nat → bool) (i j : nat) : nat :=
  match fuel with
  | O => i
  | S fuel' =>
      if bool_decide (i < j)%nat then
        let h := ((i + j) / 2)%nat in
        if f h then search_loop fuel' f i h else search_loop fuel' f (h + 1)%nat j
      else i
  end.

Definition sort_Search (n : nat) (f : nat → bool) : nat := search_loop n f 0%nat n.

Definition sort_Ints (l : list Z) : list Z := merge_sort Z.le l.

(** ** The ring with a prefix table (consistenthash.go) *)

(** [type Hash func(data []byte) uint32]: the result is read as a [uint32]
    wherever the function is called. *)
Definition Hash := string → Z.

(** [crc32.ChecksumIEEE], the default hash: the reflected CRC-32 with
    polynomial 0xEDB88320, bit by bit. *)
Definition crc_bit (crc : Z) : Z :=
  if Z.testbit crc 0 then Z.lxor (crc ≫ 1) 0xEDB88320 else crc ≫ 1.

Definition crc_byte (crc : Z) (c : Ascii.ascii) : Z :=
  Nat.iter 8 crc_bit (Z.lxor crc (Z.of_N (Ascii.N_of_ascii c))).

Definition ChecksumIEEE : string → Z := fun data =>
  Z.lxor (foldl crc_byte 0xFFFFFFFF (String.list_ascii_of_string data)) 0xFFFFFFFF.

Record Map := mkMap {
  hash : Hash;
  replicas : Z;
  prefixTableExpansion : Z;
  keys : list Z;
  hashMap : gmap Z string;
  prefixShift : Z;
  prefixTable : list string
}.

(** [m.hashMap[h]]: the zero value for an absent key. *)
Definition member (hm : gmap Z string) (h : Z) : string := default EmptyString (hm !! h).

Definition defaultHashExpansion : Z := 6.

(** [fn] is [None] for a nil function; the hash then defaults to
    [crc32.ChecksumIEEE]. *)
Definition NewConsistentHash (r : Z) (tableExpansion : Z) (fn : option Hash) : Map :=
  {| hash := default ChecksumIEEE fn; replicas := r; prefixTableExpansion := tableExpansion;
     keys := []; hashMap := ∅; prefixShift := 0; prefixTable := [] |}.

Definition New (r : Z) (fn : option Hash) : Map := NewConsistentHash r defaultHashExpansion fn.

Definition IsEmpty (m : Map) : bool := bool_decide (length (keys m) = 0%nat).

(** The hash of virtual node [i] of member [key]. *)
Definition vnode (fn : Hash) (key : string) (i : nat) : Z :=
  uint32 (fn (Itoa i +:+ key)).

(** The body of [for i := 0; i < m.replicas; i++]. *)
Definition add_replica (fn : Hash) (key : string) (st : list Z * gmap Z string) (i : nat)
  : list Z * gmap Z string :=
  let h := vnode fn key i in (st.1 ++ [h], <[h := key]> st.2).

(** The body of [for _, key := range keys]. *)
Definition add_member (fn : Hash) (r : Z) (st : list Z * gmap Z string) (key : string)
  : list Z * gmap Z string :=
  foldl (add_replica fn key) st (seq 0 (Z.to_nat r)).

Definition add_members (fn : Hash) (r : Z) (names : list string)
  (st : list Z * gmap Z string) : list Z * gmap Z string :=
  foldl (add_member fn r) st names.

(** State of the table-building loop. *)
Record walk := mkWalk {
  previousKeyPrefix : Z;
  currentKeyIdx : nat;
  currentKeyPrefix : Z;
  table : list string
}.

Section build.
Variables (ks : list Z) (hm : gmap Z string) (shift size : Z).

(** [for currentKeyPrefix == previousKeyPrefix { ... }] *)
Fixpoint advance (fuel : nat) (prev : Z) (idx : nat) (cur : Z) : outcome (nat * Z) :=
  match fuel with
  | O => NoFuel
  | S fuel' =>
      if bool_decide (cur = prev) then
        let idx' := S idx in
        match ks !! idx' with
        | Some k => advance fuel' prev idx' (k ≫ shift)
        | None => advance fuel' prev 0%nat (size + 1)
        end
      else Done (idx, cur)
  end.

(** The body of [for i := range m.prefixTable]. *)
Definition fill_slot (w : walk) (i : nat) : outcome walk :=
  if bool_decide (previousKeyPrefix w < Z.of_nat i ∧ Z.of_nat i < currentKeyPrefix w) then
    k ←! index ks (currentKeyIdx w);
    t ←! store (table w) i (member hm k);
    Done (mkWalk (previousKeyPrefix w) (currentKeyIdx w) (currentKeyPrefix w) t)
  else
    let prev := currentKeyPrefix w in
    ic ←! advance (S (length ks)) prev (currentKeyIdx w) (currentKeyPrefix w);
    Done (mkWalk prev ic.1 ic.2 (table w)).

Fixpoint fill_slots (w : walk) (slots : list nat) : outcome walk :=
  match slots with
  | [] => Done w
  | i :: slots' => w' ←! fill_slot w i; fill_slots w' slots'
  end.

Definition build_table : outcome (list string) :=
  let prefixTableSize := Z.to_nat size in
  k0 ←! index ks 0;
  w ←! fill_slots (mkWalk (-1) 0 (k0 ≫ shift) (replicate prefixTableSize EmptyString))
                 (seq 0 prefixTableSize);
  Done (table w).
End build.

Definition Add (m : Map) (names : list string) : outcome Map :=
  let st := add_members (hash m) (replicas m) names (keys m, hashMap m) in
  let ks := sort_Ints st.1 in
  let prefixBits := Len32 (uint32 (Z.of_nat (length ks) * prefixTableExpansion m)) in
  let shift := 32 - prefixBits in
  let prefixTableSize := 1 ≪ prefixBits in
  t ←! build_table ks st.2 shift prefixTableSize;
  Done {| hash := hash m; replicas := replicas m;
          prefixTableExpansion := prefixTableExpansion m;
          keys := ks; hashMap := st.2; prefixShift := shift; prefixTable := t |}.

(** The binary search shared by both rings: the index of the replica that
    serves [h], cycling back to the first one.  [sort.Search] asks its
    predicate only for indices below [len(ks)], so [ks[i]] is in range. *)
Definition search_idx (ks : list Z) (h : Z) : nat :=
  let idx := sort_Search (length ks) (fun i => bool_decide (h ≤ ks !!! i)) in
  if bool_decide (idx = length ks) then 0%nat else idx.

Definition Get (m : Map) (key : string) : outcome string :=
  if IsEmpty m then Done EmptyString
  else
    let h := uint32 (hash m key) in
    let prefixSlot := h ≫ prefixShift m in
    tableResult ←! index (prefixTable m) (Z.to_nat prefixSlot);
    if bool_decide (0 < String.length tableResult)%nat then Done tableResult
    else
      k ←! index (keys m) (search_idx (keys m) h);
      Done (member (hashMap m) k).

(** The hash function of the package's tests: the key read as a decimal
    number ([strconv.Atoi]); keys that are not numbers hash to 0 here. *)
Fixpoint atoi_digits (acc : Z) (s : string) : option Z :=
  match s with
  | EmptyString => Some acc
  | String c s' =>
      let d := Z.of_N (Ascii.N_of_ascii c) - 48 in
      if bool_decide (0 ≤ d ≤ 9) then atoi_digits (10 * acc + d) s' else None
  end.

Definition atoiHash : Hash := fun s =>
  match s with
  | EmptyString => 0
  | _ => default 0 (atoi_digits 0 s)
  end.


(** ** Packed timestamps *)

Inductive error : Type :=
  | EOF                       (* io.EOF *)
  | ErrUnexpectedEOF          (* io.ErrUnexpectedEOF *)
  | ErrOther (msg : string).  (* any other error value *)

Definition byte_of_Z (z : Z) : Byte.byte :=
  default Byte.x00 (Byte.of_N (Z.to_N (z mod 256))).

Definition Z_of_byte (b : Byte.byte) : Z := Z.of_N (Byte.to_N b).

Definition uint64 (z : Z) : Z := z mod 2 ^ 64.

(** [int64(u)] for an unsigned 64-bit [u]: two's complement. *)
Definition int64 (u : Z) : Z := if bool_decide (u < 2 ^ 63) then u else u - 2 ^ 64.

(** 64-bit signed arithmetic wraps around. *)
Definition wrap64 (z : Z) : Z := int64 (uint64 z).

(** [binary.LittleEndian.PutUint64], for [n] bytes. *)
Fixpoint le_bytes (n : nat) (u : Z) : list Byte.byte :=
  match n with
  | O => []
  | S n' => byte_of_Z u :: le_bytes n' (u ≫ 8)
  end.

(** [binary.LittleEndian.Uint64]: [b[0] | b[1]<<8 | ...]. *)
Fixpoint le_value (bs : list Byte.byte) : Z :=
  match bs with
  | [] => 0
  | b :: bs' => Z.lor (Z_of_byte b) (le_value bs' ≪ 8)
  end.

(** [binary.Write(w, binary.LittleEndian, timestamp)] on a buffer: the
    eight bytes are appended and there is no error. *)
Definition binary_Write_int64 (w : list Byte.byte) (timestamp : Z) : list Byte.byte * option error :=
  (w ++ le_bytes 8 (uint64 timestamp), None).

(** [binary.Read(r, binary.LittleEndian, &timestamp)] on a buffer: eight
    bytes are read; [io.EOF] when there is none, [io.ErrUnexpectedEOF] when
    there are fewer than eight.  The result is the value left in
    [timestamp] and the error. *)
Definition binary_Read_int64 (r : list Byte.byte) : Z * option error :=
  if bool_decide (length r = 0%nat) then (0, Some EOF)
  else if bool_decide (length r < 8)%nat then (0, Some ErrUnexpectedEOF)
  else (int64 (le_value (take 8 r)), None).

Definition packTimestamp (b : list Byte.byte) (timestamp : Z) : list Byte.byte * option error :=
  let '(w, err) := binary_Write_int64 b timestamp in
  match err with
  | Some e => ([], Some e)
  | None => (w, None)
  end.

(** [b[len(b)-8:]] panics on a slice shorter than eight bytes. *)
Definition getTimestamp (b : list Byte.byte) : outcome (Z * option error) :=
  if bool_decide (length b < 8)%nat then Panics
  else
    let timestampBytes := drop (length b - 8) b in
    let '(timestamp, err) := binary_Read_int64 timestampBytes in
    match err with
    | Some e => Done (0, Some e)
    | None => Done (timestamp, None)
    end.

Definition UnpackTimestamp (b : list Byte.byte) : outcome (list Byte.byte * Z * option error) :=
  if bool_decide (8 ≤ length b)%nat then
    r ←! getTimestamp b;
    match r.2 with
    | Some e => Done ([], 0, Some e)
    | None => Done (take (length b - 8) b, r.1, None)
    end
  else Done (b, 0, None).

(** Modelled from the spec: byteview.go is not among the sources.  A
    [ByteView] holds either a byte slice or a string and exposes its
    length, slicing that returns another [ByteView], and a copy of its
    bytes; the zero [ByteView] is the empty string. *)
Inductive ByteView : Type :=
  | ByteView_b (b : list Byte.byte)
  | ByteView_s (s : string).

Definition ByteSlice (v : ByteView) : list Byte.byte :=
  match v with
  | ByteView_b b => b
  | ByteView_s s => String.list_byte_of_string s
  end.

Definition Len (v : ByteView) : nat := length (ByteSlice v).

Definition SliceFrom (v : ByteView) (from : nat) : ByteView :=
  match v with
  | ByteView_b b => ByteView_b (drop from b)
  | ByteView_s s => ByteView_s (String.string_of_list_byte (drop from (String.list_byte_of_string s)))
  end.

Definition zeroByteView : ByteView := ByteView_s EmptyString.

Definition getTimestampByteView (bv : ByteView) : Z * option error :=
  let timestampByteView :=
    if bool_decide (8 ≤ Len bv)%nat then SliceFrom bv (Len bv - 8) else zeroByteView in
  let '(timestamp, err) := binary_Read_int64 (ByteSlice timestampByteView) in
  match err with
  | Some e => (0, Some e)
  | None => (timestamp, None)
  end.

(** ** Expiration (expiration.go) *)

(** The fields of [Group] that [handleExpiration] reads, as
    [time.Duration]s (nanoseconds). *)
Record Group := mkGroup {
  expiration : Z;
  stalePeriod : Z;
  staleDeadline : Z
}.

Section expiration.
(** The rest of the process: caches, counters, the time provider. *)
Variable World : Type.
(** Destinations ([Sink]), with the sink operations that sinks.go
    defines and expiration.go calls; none of them is under the sources. *)
Variable Sink : Type.
Variable setSinkView : Sink → ByteView → Sink * option error.
Variable AllocatingByteSliceSink : Sink.
Variable view : Sink → ByteView.
(** [g.loadOnMiss(ctx, key, dest, true)], defined in groupcache.go, which
    is not under the sources. *)
Variable loadOnMiss : Group → World → string → Sink → bool → World * Sink * option error.
(** [timeProvider.NowUnixSeconds()]. *)
Variable NowUnixSeconds : World → Z * World.
(** [int64(d.Seconds())]: [time.Duration.Seconds] goes through float64. *)
Variable seconds : Z → Z.
(** Which case of the [select] fires: [true] when the background load
    answers before [timeProvider.After(g.staleDeadline)]. *)
Variable madeDeadline : World → bool.

Definition GetTime (w : World) : Z * World := NowUnixSeconds w.

(** [expiredOffset] for a value stamped [timestamp] read at time [now]. *)
Definition expiredOffset (g : Group) (now timestamp : Z) : Z :=
  let age := wrap64 (now - timestamp) in
  wrap64 (age - seconds (expiration g)).

(** The stale branch runs the reload in a goroutine; here the reload is
    run first and [madeDeadline] says which case of the [select] is
    taken. *)
Definition handleExpiration (g : Group) (w : World) (key : string) (dest : Sink)
    (value : ByteView) : World * Sink * option error :=
  let '(timestamp, err) := getTimestampByteView value in
  match err with
  | Some e => (w, dest, Some e)
  | None =>
      let '(now, w1) := GetTime w in
      let off := expiredOffset g now timestamp in
      if bool_decide (seconds (stalePeriod g) ≤ off) then
        loadOnMiss g w1 key dest true
      else if bool_decide (0 ≤ off) then
        let '(w2, backgroundDest, berr) := loadOnMiss g w1 key AllocatingByteSliceSink true in
        if madeDeadline w1 then
          match berr with
          | Some e => (w2, dest, Some e)
          | None => let '(d, e) := setSinkView dest (view backgroundDest) in (w2, d, e)
          end
        else let '(d, e) := setSinkView dest value in (w2, d, e)
      else let '(d, e) := setSinkView dest value in (w1, d, e)
  end.
End expiration.

Arguments GetTime {World} NowUnixSeconds w.
Arguments handleExpiration {World Sink} setSinkView AllocatingByteSliceSink view
  loadOnMiss NowUnixSeconds seconds madeDeadline g w key dest value.

(** ** The gRPC pool *)

(** [getter]: the address is all that [Set] and [PickPeer] read or write
    (the dial function, the mutex and the connection play no part). *)
Record getter := mkGetter { hostAndPort : string }.

Record Pool := mkPool {
  self : string;
  peers : Map;
  getters : gmap string getter
}.

(** The variables of the package that [NewPoolOpts] reads and writes: the
    flag [poolMode], and whether [portPicker] is set (the picker that is
    registered returns the pool itself). *)
Record process := mkProcess { poolMode : bool; portPicker : bool }.

Definition RegisterPeerPicker (st : process) : outcome process :=
  if portPicker st then Panics
  else Done {| poolMode := poolMode st; portPicker := true |}.

(** [poolOptions], with its fields [replicas] and [hashFn]. *)
Record poolOptions := mkPoolOptions {
  config_replicas : Z;
  config_hashFn : option Hash
}.

(** [PoolOption], a function on a pointer to [poolOptions], as the update
    that it performs. *)
Definition PoolOption : Type := poolOptions → poolOptions.

Definition WithReplicas (replicas : Z) : PoolOption :=
  λ o, {| config_replicas := replicas; config_hashFn := config_hashFn o |}.

(** [config := &poolOptions{}; for _, opt := range opts { opt(config) }] *)
Definition applyOptions (opts : list PoolOption) : poolOptions :=
  foldl (λ config (opt : PoolOption), opt config)
        {| config_replicas := 0; config_hashFn := None |} opts.

Definition NewPoolOpts (st : process) (self : string) (opts : list PoolOption)
  : outcome (process * Pool) :=
  if poolMode st then Panics
  else
    let st1 := {| poolMode := true; portPicker := portPicker st |} in
    let config := applyOptions opts in
    let p := {| self := self;
                peers := New (config_replicas config) (config_hashFn config);
                getters := ∅ |} in
    st2 ←! RegisterPeerPicker st1;
    Done (st2, p).

Definition NewPool (st : process) (self : string) : outcome (process * Pool) :=
  NewPoolOpts st self [WithReplicas 50].

Definition Set_ (g : Pool) (ps : list string) : outcome Pool :=
  ring ←! Add (peers g) ps;
  Done {| self := self g; peers := ring;
          getters := foldl (λ gs peer, <[peer := mkGetter peer]> gs) ∅ ps |}.

(** The first component is [None] for a nil handle. *)
Definition PickPeer (g : Pool) (key : string) : outcome (option getter * bool) :=
  if IsEmpty (peers g) then Done (None, false)
  else
    peer ←! Get (peers g) key;
    if bool_decide (peer ≠ self g) then Done (getters g !! peer, true)
    else Done (None, false).

(** ** A process for the examples, after the test harness of expiration

    The world is the queue of times that the test time provider hands out;
    a sink holds the view that was set last; a load takes the next time
    from the queue and stores [content] stamped with it. *)

Definition exampleNow (w : list Z) : Z * list Z :=
  match w with
  | now :: w' => (now, w')
  | [] => (0, [])
  end.

Definition exampleSetSinkView (dest : option ByteView) (v : ByteView)
  : option ByteView * option error := (Some v, None).

Definition exampleView (s : option ByteView) : ByteView := default zeroByteView s.

Definition exampleLoad (content : string) (g : Group) (w : list Z) (key : string)
    (dest : option ByteView) (force : bool) : list Z * option ByteView * option error :=
  match w with
  | now :: w' =>
      (w', Some (ByteView_b (packTimestamp (String.list_byte_of_string content) now).1), None)
  | [] => (w, dest, Some (ErrOther "empty nowChannel queue"))
  end.

Definition exampleSeconds (d : Z) : Z := d ÷ 1000000000.

Definition exampleHandle (content : string) (deadline : bool) :=
  handleExpiration exampleSetSinkView None exampleView (exampleLoad content)
                   exampleNow exampleSeconds (λ _, deadline).

(** "blahblah1" stamped 100, as [TestExpires] caches it. *)
Definition exampleValue : ByteView :=
  ByteView_b (packTimestamp (String.list_byte_of_string "blahblah1") 100).1.

(** A map is reachable when it comes from the constructor by calls of [Add]
    that returned. *)
Inductive reachable : Map → Prop :=
  | reachable_New r e fn : reachable (NewConsistentHash r e fn)
  | reachable_Add m names m' :
      reachable m → Add m names = Done m' → reachable m'.

(** A sequence of [Add] calls, one per batch of names. *)
Fixpoint AddAll (m : Map) (batches : list (list string)) : outcome Map :=
  match batches with
  | [] => Done m
  | names :: batches' => m' ←! Add m names; AddAll m' batches'
  end.

(** ** The ring that only binary-searches, with [GetN] *)

Module Plain.

Record Map := mkMap {
  hash : Hash;
  replicas : Z;
  keys : list Z;
  hashMap : gmap Z string
}.

Definition New (r : Z) (fn : option Hash) : Map :=
  {| hash := default ChecksumIEEE fn; replicas := r; keys := []; hashMap := ∅ |}.

Definition IsEmpty (m : Map) : bool := bool_decide (length (keys m) = 0%nat).

Definition Add (m : Map) (names : list string) : Map :=
  let st := add_members (hash m) (replicas m) names (keys m, hashMap m) in
  {| hash := hash m; replicas := replicas m; keys := sort_Ints st.1; hashMap := st.2 |}.

Definition AddAll (m : Map) (batches : list (list string)) : Map :=
  foldl Add m batches.

Definition getKeyFromHash (m : Map) (h : Z) : outcome Z :=
  index (keys m) (search_idx (keys m) h).

Definition Get (m : Map) (key : string) : outcome string :=
  if IsEmpty m then Done EmptyString
  else
    let h := uint32 (hash m key) in
    k ←! getKeyFromHash m h;
    Done (member (hashMap m) k).

Definition AcceptAny (stack : list string) (found : string) : bool := true.

Fixpoint AcceptUnique (stack : list string) (found : string) : bool :=
  match stack with
  | [] => true
  | v :: stack' => if bool_decide (v = found) then false else AcceptUnique stack' found
  end.

(** [for i := 1; len(out) < n && i < ringLength; i++ { ... }], with [cnt]
    the number of values of [i] still below [ringLength]. *)
Fixpoint GetN_loop (m : Map) (n : Z) (accept : list string → string → bool)
    (cnt : nat) (hashKey : Z) (out : list string) : outcome (list string) :=
  match cnt with
  | O => Done out
  | S cnt' =>
      if bool_decide (Z.of_nat (length out) < n) then
        hashKey' ←! getKeyFromHash m (hashKey + 1);
        let res := member (hashMap m) hashKey' in
        if accept out res then GetN_loop m n accept cnt' hashKey' (out ++ [res])
        else GetN_loop m n accept cnt' hashKey' out
      else Done out
  end.

Definition GetN (m : Map) (key : string) (n : Z)
    (accept : option (list string → string → bool)) : outcome (list string) :=
  let out := [] in
  if IsEmpty m || bool_decide (n < 1) then Done out
  else
    let accept := default AcceptAny accept in
    let h := uint32 (hash m key) in
    hashKey ←! getKeyFromHash m h;
    let out := out ++ [member (hashMap m) hashKey] in
    let ringLength := size (hashMap m) in
    GetN_loop m n accept (ringLength - 1)%nat hashKey out.

Inductive reachable : Map → Prop :=
  | reachable_New r fn : reachable (New r fn)
  | reachable_Add m names : reachable m → reachable (Add m names).

End Plain.

(** ** The ring read as the specification words it *)

(** [h'] serves [h] on the ring [ks]: the smallest hash that is at least
    [h], or the smallest hash of all when none is. *)
Definition serves (ks : list Z) (h h' : Z) : Prop :=
  h' ∈ ks ∧
  ((h ≤ h' ∧ ∀ x, x ∈ ks → h ≤ x → h' ≤ x) ∨
   ((∀ x, x ∈ ks → x < h) ∧ ∀ x, x ∈ ks → h' ≤ x)).

(** The hash that serves [h], as a function: the first hash of the sorted
    ring that is at least [h], or the first hash of the ring. *)
Definition successor (ks : list Z) (h : Z) : option Z :=
  head (filter (λ x, h ≤ x) ks ++ ks).

(** The distinct hashes of the ring in ring order, starting from the one
    that serves [h]. *)
Definition ring_from (ks : list Z) (h : Z) : list Z :=
  let d := remove_dups ks in
  filter (λ x, h ≤ x) d ++ filter (λ x, x < h) d.

(** Feeding candidates through [accept] until [n] members are chosen or the
    candidates run out. *)
Fixpoint choose (n : Z) (accept : list string → string → bool)
    (out : list string) (cands : list string) : list string :=
  match cands with
  | [] => out
  | c :: cands' =>
      if bool_decide (Z.of_nat (length out) < n) then
        if accept out c then choose n accept (out ++ [c]) cands'
        else choose n accept out cands'
      else out
  end.

Definition GetN_spec (m : Plain.Map) (key : string) (n : Z)
    (accept : list string → string → bool) : list string :=
  match member (Plain.hashMap m) <$> ring_from (Plain.keys m) (uint32 (Plain.hash m key)) with
  | [] => []
  | primary :: successors => choose n accept [primary] successors
  end.

(** The hashes of [ks] whose top bits (after [shift]) are [i]. *)
Definition in_slot (ks : list Z) (shift : Z) (i : Z) : list Z :=
  filter (λ h, h ≫ shift = i) ks.

(** The hash that follows slot [i] in ring order: the first one above the
    slot, or the first of the ring when there is none above. *)
Definition after_slot (ks : list Z) (shift : Z) (i : Z) : option Z :=
  head (filter (λ h, i < h ≫ shift) ks ++ ks).

(** Slot [i] as the specification describes it: the common member of the
    slot's hashes and of the hash after the slot when there is one, the
    empty string otherwise. *)
Definition slot_as_specified (m : Map) (i : Z) : string :=
  match after_slot (keys m) (prefixShift m) i with
  | None => EmptyString
  | Some nxt =>
      let name := member (hashMap m) nxt in
      if bool_decide (Forall (λ h, member (hashMap m) h = name)
                             (in_slot (keys m) (prefixShift m) i))
      then name else EmptyString
  end.

(** Slot [i] as [Add] fills it: the member of the hash after the slot when
    no hash lies in the slot, the empty string when one does. *)
Definition slot_as_built (ks : list Z) (hm : gmap Z string) (shift i : Z) : string :=
  match in_slot ks shift i, after_slot ks shift i with
  | [], Some nxt => member hm nxt
  | _, _ => EmptyString
  end.

(** ** Invariants *)

(** Where the table-building loop stands before slot [i]: on the first hash
    whose prefix is at least [i], or past the last hash. *)
Definition walk_pos (ks : list Z) (shift size : Z) (i : Z) (idx : nat) (cur : Z) : Prop :=
  (∃ pre k suf, ks = pre ++ k :: suf ∧ idx = length pre ∧ cur = k ≫ shift ∧
                i ≤ k ≫ shift ∧ Forall (λ x, x ≫ shift < i) pre) ∨
  (idx = 0%nat ∧ cur = size + 1 ∧ Forall (λ x, x ≫ shift < i) ks).

Definition walk_inv (ks : list Z) (hm : gmap Z string) (shift size : Z)
    (i : nat) (w : walk) : Prop :=
  previousKeyPrefix w < Z.of_nat i ∧
  walk_pos ks shift size (Z.of_nat i) (currentKeyIdx w) (currentKeyPrefix w) ∧
  length (table w) = Z.to_nat size ∧
  (∀ j, (j < i)%nat → (j < Z.to_nat size)%nat →
        table w !! j = Some (slot_as_built ks hm shift (Z.of_nat j))) ∧
  (∀ j, (i ≤ j)%nat → (j < Z.to_nat size)%nat → table w !! j = Some EmptyString).

(** The hashes that [Add] appends for [names], in the order of the loops,
    each with its member. *)
Definition vnodes (fn : Hash) (r : Z) (names : list string) : list (Z * string) :=
  names ≫= λ key, (λ i, (vnode fn key i, key)) <$> seq 0 (Z.to_nat r).

(** What every reachable ring satisfies. *)
Definition ring_ok (m : Map) : Prop :=
  StronglySorted Z.le (keys m) ∧
  Forall (λ x, 0 ≤ x < 2 ^ 32) (keys m) ∧
  (replicas m ≤ 0 → keys m = []) ∧
  (keys m = [] → prefixTable m = []) ∧
  (keys m ≠ [] →
     0 ≤ prefixShift m ≤ 32 ∧
     length (prefixTable m) = Z.to_nat (2 ^ (32 - prefixShift m)) ∧
     ∀ j, (j < length (prefixTable m))%nat →
          prefixTable m !! j =
            Some (slot_as_built (keys m) (hashMap m) (prefixShift m) (Z.of_nat j))).

(** The ring and the member map after [Add m names], when it returns. *)
Definition keys_after (m : Map) (names : list string) : list Z :=
  sort_Ints (keys m ++ (vnodes (hash m) (replicas m) names).*1).

Definition hashMap_after (m : Map) (names : list string) : gmap Z string :=
  (foldl (λ st (p : Z * string), (st.1 ++ [p.1], <[p.1 := p.2]> st.2))
         (keys m, hashMap m) (vnodes (hash m) (replicas m) names)).2.


(** No two different members of [names] share a virtual-node hash. *)
Definition collision_free (fn : Hash) (r : Z) (names : list string) : Prop :=
  ∀ a b i j, a ∈ names → b ∈ names → Z.of_nat i < r → Z.of_nat j < r →
             vnode fn a i = vnode fn b j → a = b.

(** What every reachable plain ring satisfies: the hashes are sorted and
    [hashMap] records a member for exactly the hashes of the ring. *)
Definition plain_ok (p : Plain.Map) : Prop :=
  StronglySorted Z.le (Plain.keys p) ∧
  ∀ h, is_Some (Plain.hashMap p !! h) ↔ h ∈ Plain.keys p.

(** ** Rings for the examples *)

(** The value of a computation that returned, [d] otherwise. *)
Definition returned {A} (d : A) (x : outcome A) : A :=
  match x with
  | Done a => a
  | _ => d
  end.

Definition is_Done {A} (x : outcome A) : bool :=
  match x with
  | Done _ => true
  | _ => false
  end.

(** The ring of [TestHashing], before and after "8" joins. *)
Definition testRing : Map :=
  returned (NewConsistentHash 3 6 (Some atoiHash))
           (AddAll (NewConsistentHash 3 6 (Some atoiHash)) [["6"; "4"; "2"]]%string).

Definition testRing8 : Map :=
  returned (NewConsistentHash 3 6 (Some atoiHash))
           (AddAll (NewConsistentHash 3 6 (Some atoiHash)) [["6"; "4"; "2"]; ["8"]]%string).

(** A ring with the single member "7" and one replica. *)
Definition singleRing : Map :=
  returned (NewConsistentHash 1 6 (Some atoiHash))
           (Add (NewConsistentHash 1 6 (Some atoiHash)) ["7"]%string).

(** Two rings with the members "2" and "4", added in different batches and
    orders. *)
Definition orderRing1 : Map :=
  returned (NewConsistentHash 1 6 (Some atoiHash))
           (AddAll (NewConsistentHash 1 6 (Some atoiHash)) [["2"]; ["4"]]%string).

Definition orderRing2 : Map :=
  returned (NewConsistentHash 1 6 (Some atoiHash))
           (AddAll (NewConsistentHash 1 6 (Some atoiHash)) [["4"; "2"]]%string).

(** Two rings with the members "2" and "12" and three replicas: virtual
    node 1 of "2" and virtual node 0 of "12" both hash to 12. *)
Definition collideRing1 : Map :=
  returned (NewConsistentHash 3 6 (Some atoiHash))
           (AddAll (NewConsistentHash 3 6 (Some atoiHash)) [["2"; "12"]]%string).

Definition collideRing2 : Map :=
  returned (NewConsistentHash 3 6 (Some atoiHash))
           (AddAll (NewConsistentHash 3 6 (Some atoiHash)) [["12"; "2"]]%string).

(** The pool at address [me] after [Set("1", "5")] and after a further
    [Set("5")]. *)
Definition freshProcess : process := {| poolMode := false; portPicker := false |}.

(** An option as code of the package can write it: it sets the hash
    function to the hash of the tests. *)
Definition withAtoiHash : PoolOption :=
  λ o, {| config_replicas := config_replicas o; config_hashFn := Some atoiHash |}.

(** The pool that the first [NewPoolOpts(me, WithReplicas(1), withAtoiHash)]
    of a process returns. *)
Definition examplePool (me : string) : Pool :=
  (returned (freshProcess, mkPool me (New 0 None) ∅)
            (NewPoolOpts freshProcess me [WithReplicas 1; withAtoiHash])).2.

Definition poolAfterFirstSet (me : string) : Pool :=
  returned (examplePool me) (Set_ (examplePool me) ["1"; "5"]%string).

Definition poolAfterSecondSet (me : string) : Pool :=
  returned (poolAfterFirstSet me) (Set_ (poolAfterFirstSet me) ["5"]%string).

(** ** Further rings for the examples *)

(** The ring of [TestHashing] after its second call, [Add("8")]. *)
Definition testRingThen8 : Map := returned testRing (Add testRing ["8"]%string).

(** ** The HTTP pool *)

Module HTTP.

Definition defaultBasePath : string := "/_groupcache/".

Definition defaultReplicas : Z := 50.

(** [httpGetter]: the base URL of the peer (the transport hook of the pool
    is carried along unchanged and plays no part here). *)
Record httpGetter := mkHttpGetter { baseURL : string }.

(** [HTTPPool]: the fields that [Set], [PickPeer] and [ServeHTTP] read. *)
Record HTTPPool := mkHTTPPool {
  basePath : string;
  self : string;
  peers : Map
}.

(** [httpPoolMade] is the flag of the package: a second call panics.  The
    registrations with the peer-picker hook and with the HTTP mux are left
    out. *)
Definition NewHTTPPool (httpPoolMade : bool) (self : string) : outcome (bool * HTTPPool) :=
  if httpPoolMade then Panics
  else Done (true, {| basePath := defaultBasePath; self := self;
                      peers := New defaultReplicas None |}).

(** [p.peers = consistenthash.New(defaultReplicas, nil); p.peers.Add(peers...)] *)
Definition Set_ (p : HTTPPool) (ps : list string) : outcome HTTPPool :=
  let fresh := New defaultReplicas None in
  ring ←! Add fresh ps;
  Done {| basePath := basePath p; self := self p; peers := ring |}.

Definition PickPeer (p : HTTPPool) (key : string) : outcome (option httpGetter * bool) :=
  if IsEmpty (peers p) then Done (None, false)
  else
    peer ←! Get (peers p) key;
    if bool_decide (peer ≠ self p) then Done (Some (mkHttpGetter (peer +:+ basePath p)), true)
    else Done (None, false).

(** What [ServeHTTP] writes: [http.Error(w, msg, code)], or a body with its
    content type. *)
Inductive response : Type :=
  | HttpError (msg : string) (code : Z)
  | Body (contentType : string) (body : list Byte.byte).

(** [s[n:]] on a string. *)
Fixpoint string_from (n : nat) (s : string) : string :=
  match n, s with
  | O, _ => s
  | S n', String _ s' => string_from n' s'
  | S _, EmptyString => EmptyString
  end.

(** The byte 0x2f, "/". *)
Definition slash : Ascii.ascii := Ascii.ascii_of_byte Byte.x2f.

(** The first "/" of [s]: what is before it and what is after it. *)
Fixpoint cut_slash (s : string) : option (string * string) :=
  match s with
  | EmptyString => None
  | String c s' =>
      if bool_decide (c = slash) then Some (EmptyString, s')
      else match cut_slash s' with
           | Some (a, b) => Some (String c a, b)
           | None => None
           end
  end.

(** [strings.SplitN(s, "/", 2)]. *)
Definition SplitN_slash_2 (s : string) : list string :=
  match cut_slash s with
  | Some (a, b) => [a; b]
  | None => [s]
  end.

Section serve.
(** The registry of groups and what a group does, from groupcache.go, which
    is not under the sources; [proto.Marshal]; [err.Error()]. *)
Variables World Grp : Type.
Variable GetGroup : string → option Grp.
Variable addServerRequest : Grp → World → World.
Variable groupGet : Grp → World → string → World * list Byte.byte * option error.
Variable Marshal : list Byte.byte → list Byte.byte * option error.
Variable errorString : error → string.

(** [path] is [r.URL.Path].  The context that the pool's hook derives from
    the request is handed on to [group.Get] and is part of [groupGet]. *)
Definition ServeHTTP (p : HTTPPool) (w : World) (path : string) : outcome (World * response) :=
  if negb (String.prefix (basePath p) path) then Panics
  else
    let parts := SplitN_slash_2 (string_from (String.length (basePath p)) path) in
    match parts with
    | [groupName; key] =>
        match GetGroup groupName with
        | None => Done (w, HttpError ("no such group: " +:+ groupName) 404)
        | Some group =>
            let w1 := addServerRequest group w in
            let '(w2, value, err) := groupGet group w1 key in
            match err with
            | Some e => Done (w2, HttpError (errorString e) 500)
            | None =>
                let '(body, err) := Marshal value in
                match err with
                | Some e => Done (w2, HttpError (errorString e) 500)
                | None => Done (w2, Body "application/x-protobuf" body)
                end
            end
        end
    | _ => Done (w, HttpError "bad request" 400)
    end.
End serve.

End HTTP.

Arguments HTTP.ServeHTTP {World Grp} GetGroup addServerRequest groupGet Marshal
  errorString p w path.

(** The HTTP pool at "http://a" after [Set("http://a", "http://b")]. *)
Definition exampleHTTPPool : HTTP.HTTPPool :=
  returned (HTTP.mkHTTPPool HTTP.defaultBasePath "http://a" (New HTTP.defaultReplicas None))
           (HTTP.Set_ (HTTP.mkHTTPPool HTTP.defaultBasePath "http://a"
                                       (New HTTP.defaultReplicas None))
                      ["http://a"; "http://b"]%string).

(** * Proofs *)

(** ** Outcomes *)

Lemma obind_Done {A B} (x : outcome A) (f : A → outcome B) (b : B) :
  obind x f = Done b → ∃ a, x = Done a ∧ f a = Done b.
Proof. destruct x; simpl; intros; [eauto | discriminate | discriminate]. Qed.

Lemma returned_Done {A} (d : A) (x : outcome A) :
  is_Done x = true → x = Done (returned d x).
Proof. by destruct x. Qed.

(** Settles [x = Done v] for a closed computation [x] by evaluating it; [d]
    is the default under [returned] in [v]. *)
Ltac returned_with d :=
  lazymatch goal with
  | |- ?x = Done _ => exact (returned_Done d x (@eq_refl bool true <: is_Done x = true))
  end.

Lemma index_Done {A} (s : list A) i x : index s i = Done x ↔ s !! i = Some x.
Proof. unfold index. destruct (s !! i); split; intros; simplify_eq; done. Qed.

Lemma index_lookup {A} (s : list A) i x : s !! i = Some x → index s i = Done x.
Proof. apply index_Done. Qed.

(** ** Binary search *)

Section search.
Variables (f : nat → bool) (n : nat).
Hypothesis f_mono : ∀ a b, (a ≤ b)%nat → (b < n)%nat → f a = true → f b = true.

(** The loop keeps everything left of [i] rejected and everything from
    [j] on accepted, and [j - i] units of fuel are enough. *)
Lemma search_loop_spec fuel i j :
  (i ≤ j)%nat → (j ≤ n)%nat → (j - i ≤ fuel)%nat →
  (∀ a, (a < i)%nat → f a = false) →
  (∀ a, (j ≤ a)%nat → (a < n)%nat → f a = true) →
  let r := search_loop fuel f i j in
  (r ≤ n)%nat ∧ (∀ a, (a < r)%nat → f a = false) ∧
  (∀ a, (r ≤ a)%nat → (a < n)%nat → f a = true).
Proof.
  revert i j. induction fuel as [|fuel IH]; intros i j Hij Hjn Hfuel Hlo Hhi;
    cbn [search_loop]; cbv zeta.
  - assert (i = j) by lia. subst. auto.
  - case_bool_decide as Hlt.
    + set (h := ((i + j) / 2)%nat).
      assert (i ≤ h ∧ h < j)%nat as [Hih Hhj].
      { subst h. split.
        - apply Nat.div_le_lower_bound; lia.
        - apply Nat.Div0.div_lt_upper_bound; lia. }
      destruct (f h) eqn:Hfh.
      * apply IH; try lia; [done|].
        intros a Ha Han. apply (f_mono h a); [lia | done | done].
      * apply IH; try lia; [|done].
        intros a Ha. destruct (f a) eqn:Hfa; [|done].
        rewrite (f_mono a h) in Hfh; [done | lia | lia | done].
    + assert (i = j) by lia. subst. auto.
Qed.

Lemma sort_Search_spec :
  let r := sort_Search n f in
  (r ≤ n)%nat ∧ (∀ a, (a < r)%nat → f a = false) ∧
  (∀ a, (r ≤ a)%nat → (a < n)%nat → f a = true).
Proof. apply search_loop_spec; intros; lia. Qed.
End search.

(** ** Sorted rings *)

Lemma sorted_lookup_le (ks : list Z) a b x y :
  StronglySorted Z.le ks → (a ≤ b)%nat → ks !! a = Some x → ks !! b = Some y → x ≤ y.
Proof.
  intros Hs. revert a b. induction Hs as [|k ks Hs IH Hall]; intros a b Hab Ha Hb.
  - done.
  - destruct a as [|a], b as [|b]; simpl in *; simplify_eq; try lia.
    + rewrite Forall_forall in Hall. apply Hall. eapply list_elem_of_lookup_2. done.
    + eapply IH; [|done|done]. lia.
Qed.

Lemma filter_sorted_split (ks : list Z) h :
  StronglySorted Z.le ks →
  ∃ lo hi, ks = lo ++ hi ∧ Forall (λ x, x < h) lo ∧ Forall (λ x, h ≤ x) hi.
Proof.
  induction 1 as [|k ks Hs IH Hall].
  - exists [], []. repeat split; constructor.
  - destruct IH as (lo & hi & -> & Hlo & Hhi).
    destruct (decide (k < h)).
    + exists (k :: lo), hi. repeat split; [by constructor | done].
    + exists [], (k :: lo ++ hi). repeat split; [constructor|].
      constructor; [lia|]. eapply Forall_impl; [exact Hall|]. simpl. intros; lia.
Qed.

Lemma filter_all {A} (P : A → Prop) `{∀ x, Decision (P x)} (l : list A) :
  Forall P l → filter P l = l.
Proof.
  induction 1 as [|x l Hx _ IH]; [done|].
  rewrite filter_cons_True; [|done]. by rewrite IH.
Qed.

Lemma filter_none {A} (P : A → Prop) `{∀ x, Decision (P x)} (l : list A) :
  Forall (λ x, ¬ P x) l → filter P l = [].
Proof.
  induction 1 as [|x l Hx _ IH]; [done|].
  rewrite filter_cons_False; [|done]. done.
Qed.

(** On a sorted ring the binary search of [Get] lands on the successor. *)
Lemma search_idx_successor (ks : list Z) h :
  StronglySorted Z.le ks → ks !! search_idx ks h = successor ks h.
Proof.
  intros Hs. unfold search_idx, successor.
  set (f := fun i : nat => bool_decide (h ≤ ks !!! i)).
  assert (Hmono : ∀ a b, (a ≤ b)%nat → (b < length ks)%nat → f a = true → f b = true).
  { intros a b Hab Hb. unfold f. rewrite !bool_decide_eq_true. intros Ha.
    destruct (lookup_lt_is_Some_2 ks a) as [x Hx]; [lia|].
    destruct (lookup_lt_is_Some_2 ks b) as [y Hy]; [lia|].
    rewrite (list_lookup_total_correct _ _ _ Hx) in Ha.
    rewrite (list_lookup_total_correct _ _ _ Hy).
    pose proof (sorted_lookup_le ks a b x y Hs Hab Hx Hy). lia. }
  destruct (sort_Search_spec f (length ks) Hmono) as (Hr & Hlo & Hhi).
  set (r := sort_Search (length ks) f) in *.
  destruct (filter_sorted_split ks h Hs) as (lo & hi & Hks & Hlt & Hge).
  assert (Hrlo : r = length lo).
  { destruct (decide (r < length lo)%nat) as [Hl|Hl].
    - destruct (lookup_lt_is_Some_2 lo r Hl) as [x Hx].
      assert (f r = true) as Hfr.
      { apply Hhi; [lia|]. rewrite Hks, length_app. lia. }
      unfold f in Hfr. rewrite bool_decide_eq_true in Hfr.
      assert (ks !! r = Some x) as Hkx by (rewrite Hks; by apply lookup_app_l_Some).
      rewrite (list_lookup_total_correct _ _ _ Hkx) in Hfr.
      rewrite Forall_forall in Hlt.
      pose proof (Hlt x (list_elem_of_lookup_2 _ _ _ Hx)). lia.
    - destruct (decide (length lo < r)%nat) as [Hg|Hg]; [|lia].
      assert (f (length lo) = false) as Hfr by (apply Hlo; lia).
      unfold f in Hfr. rewrite bool_decide_eq_false in Hfr.
      destruct (lookup_lt_is_Some_2 ks (length lo)) as [x Hx]; [lia|].
      rewrite (list_lookup_total_correct _ _ _ Hx) in Hfr.
      rewrite Hks, lookup_app_r in Hx by lia.
      rewrite Nat.sub_diag in Hx.
      rewrite Forall_forall in Hge.
      pose proof (Hge x (list_elem_of_lookup_2 _ _ _ Hx)). lia. }
  assert (Hfil : filter (λ x, h ≤ x) ks = hi).
  { rewrite Hks, filter_app, filter_none, filter_all; [done | done |].
    eapply Forall_impl; [exact Hlt|]. simpl. intros; lia. }
  rewrite Hfil.
  case_bool_decide as Hlen.
  - assert (hi = []) as ->.
    { apply length_zero_iff_nil. rewrite Hks, length_app in Hlen. lia. }
    simpl. by rewrite head_lookup.
  - rewrite Hrlo. rewrite Hks at 1. rewrite lookup_app_r by lia.
    rewrite Nat.sub_diag. destruct hi as [|x hi]; [|done].
    rewrite Hks, length_app in Hlen. simpl in Hlen. lia.
Qed.

Lemma successor_serves (ks : list Z) h h' :
  StronglySorted Z.le ks → successor ks h = Some h' → serves ks h h'.
Proof.
  intros Hs. unfold successor.
  destruct (filter_sorted_split ks h Hs) as (lo & hi & Hks & Hlt & Hge).
  assert (Hfil : filter (λ x, h ≤ x) ks = hi).
  { rewrite Hks, filter_app, filter_none, filter_all; [done | done |].
    eapply Forall_impl; [exact Hlt|]. simpl. intros; lia. }
  rewrite Hfil. rewrite Forall_forall in Hlt, Hge.
  destruct hi as [|x hi]; simpl.
  - rewrite app_nil_r in Hks. subst lo. intros Hhd.
    destruct ks as [|k ks]; simplify_eq/=.
    split; [left|]. right. split; [done|].
    apply StronglySorted_cons in Hs as [Hall _]. rewrite Forall_forall in Hall.
    intros x [->|Hx]%elem_of_cons; [lia | by apply Hall].
  - intros [= ->]. split.
    + rewrite Hks. apply elem_of_app. right. left.
    + left. split; [apply Hge; left|].
      intros y Hy Hhy. rewrite Hks in Hy. apply elem_of_app in Hy as [Hy|Hy].
      * specialize (Hlt y Hy). lia.
      * rewrite Hks in Hs. apply StronglySorted_app in Hs as (_ & _ & Hs).
        apply StronglySorted_cons in Hs as [Hall _]. rewrite Forall_forall in Hall.
        apply elem_of_cons in Hy as [->|Hy]; [lia | by apply Hall].
Qed.

Lemma successor_is_Some (ks : list Z) h : ks ≠ [] → is_Some (successor ks h).
Proof.
  intros Hne. unfold successor. destruct (filter _ ks) as [|x l]; simpl; [|eauto].
  destruct ks; [done | eauto].
Qed.

(** Two hashes that serve [h] on rings with the same elements are equal. *)
Lemma serves_unique (ks ks' : list Z) h a b :
  (∀ x, x ∈ ks ↔ x ∈ ks') → serves ks h a → serves ks' h b → a = b.
Proof.
  intros Heq (Ha & Hsa) (Hb & Hsb).
  pose proof (proj1 (Heq a) Ha) as Ha'. pose proof (proj2 (Heq b) Hb) as Hb'.
  destruct Hsa as [[Hha Hmina]|[Halla Hmina]], Hsb as [[Hhb Hminb]|[Hallb Hminb]].
  - pose proof (Hmina b Hb' Hhb). pose proof (Hminb a Ha' Hha). lia.
  - specialize (Hallb a Ha'). lia.
  - specialize (Halla b Hb'). lia.
  - pose proof (Hmina b Hb'). pose proof (Hminb a Ha'). lia.
Qed.

(** ** Building the prefix table *)

Lemma shiftr_mono (a b s : Z) : 0 ≤ s → a ≤ b → a ≫ s ≤ b ≫ s.
Proof.
  intros Hs Hab. rewrite !Z.shiftr_div_pow2 by done.
  apply Z.div_le_mono; [|done]. apply Z.pow_pos_nonneg; lia.
Qed.

Section build_proofs.
Variables (ks : list Z) (hm : gmap Z string) (shift size : Z).
Hypothesis ks_sorted : StronglySorted Z.le ks.
Hypothesis ks_nonempty : ks ≠ [].
Hypothesis shift_nonneg : 0 ≤ shift.
Hypothesis size_nonneg : 0 ≤ size.
Hypothesis ks_nonneg : Forall (λ x, 0 ≤ x) ks.

Lemma ks_first : ∃ k0 ks0, ks = k0 :: ks0.
Proof. destruct ks as [|k0 ks0] eqn:E; [done | eauto]. Qed.

(** The inner loop leaves the hashes of slot [i] and stops on the first
    hash above it, or past the end of the ring. *)
Lemma advance_spec (i : Z) (suf : list Z) :
  ∀ pre k fuel,
    ks = pre ++ k :: suf → k ≫ shift = i → i < size →
    Forall (λ x, x ≫ shift ≤ i) pre → Forall (λ x, i ≤ x ≫ shift) suf →
    (length suf + 2 ≤ fuel)%nat →
    ∃ idx' cur', advance ks shift size fuel i (length pre) i = Done (idx', cur') ∧
                 walk_pos ks shift size (i + 1) idx' cur'.
Proof.
  induction suf as [|k' suf IH]; intros pre k fuel Hks Hk Hi Hpre Hsuf Hfuel.
  - destruct fuel as [|[|fuel]]; simpl in Hfuel; try lia.
    cbn [advance]. rewrite bool_decide_eq_true_2 by done.
    assert (ks !! S (length pre) = None) as ->.
    { apply lookup_ge_None_2. rewrite Hks, length_app. simpl. lia. }
    rewrite bool_decide_eq_false_2 by lia.
    eexists _, _. split; [done|]. right. repeat split.
    rewrite Hks. apply Forall_app. split.
    + eapply Forall_impl; [exact Hpre|]. simpl. intros; lia.
    + repeat constructor. lia.
  - destruct fuel as [|fuel]; simpl in Hfuel; try lia.
    cbn [advance]. rewrite bool_decide_eq_true_2 by done.
    assert (ks !! S (length pre) = Some k') as ->.
    { rewrite Hks, lookup_app_r by lia.
      replace (S (length pre) - length pre)%nat with 1%nat by lia. done. }
    apply Forall_cons in Hsuf as [Hk' Hsuf].
    assert (Hpre' : Forall (λ x, x ≫ shift ≤ i) (pre ++ [k])).
    { apply Forall_app. split; [done|]. repeat constructor. lia. }
    assert (Hlen : S (length pre) = length (pre ++ [k])).
    { rewrite length_app. simpl. lia. }
    assert (Hks' : ks = (pre ++ [k]) ++ k' :: suf) by (by rewrite <- app_assoc).
    destruct (decide (k' ≫ shift = i)) as [Heq|Hne].
    + rewrite Heq, Hlen. apply (IH (pre ++ [k]) k' fuel); try done. lia.
    + destruct fuel as [|fuel]; [lia|]. cbn [advance].
      rewrite bool_decide_eq_false_2 by done.
      eexists _, _. split; [done|]. left.
      exists (pre ++ [k]), k', suf. repeat split; try done; [lia|].
      eapply Forall_impl; [exact Hpre'|]. simpl. intros; lia.
Qed.

Lemma in_slot_empty (i : Z) :
  Forall (λ x, x ≫ shift ≠ i) ks → in_slot ks shift i = [].
Proof. intros H. unfold in_slot. apply filter_none. eapply Forall_impl; [exact H|]. done. Qed.

(** What follows [k] in a sorted ring has a prefix at least as large. *)
Lemma sorted_suffix_prefix pre k suf :
  ks = pre ++ k :: suf → Forall (λ x, k ≫ shift ≤ x ≫ shift) suf.
Proof.
  intros Hks. pose proof ks_sorted as Hs. rewrite Hks in Hs.
  apply StronglySorted_app in Hs as (_ & _ & Hs).
  apply StronglySorted_cons in Hs as [Hall _].
  eapply Forall_impl; [exact Hall|]. simpl. intros x Hx. by apply shiftr_mono.
Qed.

(** One slot of the outer loop. *)
Lemma fill_slot_inv (i : nat) (w : walk) :
  Z.of_nat i < size → walk_inv ks hm shift size i w →
  ∃ w', fill_slot ks hm shift size w i = Done w' ∧ walk_inv ks hm shift size (S i) w'.
Proof.
  intros Hi (Hprev & Hpos & Hlen & Hbelow & Habove).
  unfold fill_slot. case_bool_decide as Hcond.
  - (* no hash in slot i: the slot takes the member of the current hash *)
    destruct Hcond as [_ Hcur].
    assert (∃ k, ks !! currentKeyIdx w = Some k ∧
                 slot_as_built ks hm shift (Z.of_nat i) = member hm k) as (k & Hk & Hslot).
    { destruct Hpos as [(pre & k & suf & Hks & Hidx & Hc & Hge & Hpre)|(Hidx & Hc & Hall)].
      - exists k. split.
        { rewrite Hidx, Hks, lookup_app_r by lia. by rewrite Nat.sub_diag. }
        pose proof (sorted_suffix_prefix pre k suf Hks) as Hsuf.
        unfold slot_as_built, after_slot.
        rewrite in_slot_empty.
        2:{ rewrite Hks. apply Forall_app. split.
            - eapply Forall_impl; [exact Hpre|]. simpl. intros; lia.
            - constructor; [lia|]. eapply Forall_impl; [exact Hsuf|]. simpl. intros; lia. }
        rewrite Hks at 1. rewrite filter_app, filter_none.
        2:{ eapply Forall_impl; [exact Hpre|]. simpl. intros; lia. }
        rewrite filter_cons_True by lia. done.
      - destruct ks_first as (k0 & ks0 & Eks). exists k0.
        split; [by rewrite Hidx, Eks|].
        unfold slot_as_built, after_slot.
        rewrite in_slot_empty.
        2:{ eapply Forall_impl; [exact Hall|]. simpl. intros; lia. }
        rewrite filter_none.
        2:{ eapply Forall_impl; [exact Hall|]. simpl. intros; lia. }
        by rewrite Eks. }
    rewrite (index_lookup _ _ _ Hk). simpl. unfold store.
    rewrite bool_decide_eq_true_2 by lia. simpl.
    eexists. split; [done|]. unfold walk_inv; simpl. split_and!.
    + lia.
    + destruct Hpos as [(pre & k1 & suf & Hks & Hidx & Hc & Hge & Hpre)|(Hidx & Hc & Hall)].
      * left. exists pre, k1, suf. repeat split; try done; [lia|].
        eapply Forall_impl; [exact Hpre|]. simpl. intros; lia.
      * right. repeat split; try done.
        eapply Forall_impl; [exact Hall|]. simpl. intros; lia.
    + by rewrite length_insert.
    + intros j Hj Hjs. destruct (decide (j = i)) as [->|Hne].
      * rewrite list_lookup_insert_eq by lia. by rewrite Hslot.
      * rewrite list_lookup_insert_ne by done. apply Hbelow; lia.
    + intros j Hj Hjs. rewrite list_lookup_insert_ne by lia. apply Habove; lia.
  - (* a hash lies in slot i: the slot stays empty and the walk moves on *)
    destruct Hpos as [(pre & k & suf & Hks & Hidx & Hc & Hge & Hpre)|(Hidx & Hc & Hall)];
      [|exfalso; apply Hcond; lia].
    assert (Hki : k ≫ shift = Z.of_nat i) by (apply Z.le_antisymm; [|done]; lia).
    pose proof (sorted_suffix_prefix pre k suf Hks) as Hsuf.
    destruct (advance_spec (Z.of_nat i) suf pre k (S (length ks)))
      as (idx' & cur' & Hadv & Hpos'); try done.
    { eapply Forall_impl; [exact Hpre|]. simpl. intros; lia. }
    { eapply Forall_impl; [exact Hsuf|]. simpl. intros; lia. }
    { rewrite Hks, length_app. simpl. lia. }
    rewrite Hc, Hki, Hidx, Hadv. simpl.
    eexists. split; [done|]. unfold walk_inv; simpl. split_and!.
    + lia.
    + by rewrite Nat2Z.inj_succ, <- Z.add_1_r.
    + done.
    + intros j Hj Hjs. destruct (decide (j = i)) as [->|Hne].
      * rewrite Habove by lia. f_equal. unfold slot_as_built.
        assert (k ∈ in_slot ks shift (Z.of_nat i)) as Hin.
        { unfold in_slot. apply list_elem_of_filter. split; [done|].
          rewrite Hks. apply elem_of_app. right. left. }
        destruct (in_slot ks shift (Z.of_nat i)); [by apply elem_of_nil in Hin | done].
      * apply Hbelow; lia.
    + intros j Hj Hjs. apply Habove; lia.
Qed.

Lemma fill_slots_inv (n : nat) :
  ∀ (i : nat) (w : walk),
    Z.of_nat (i + n) ≤ size → walk_inv ks hm shift size i w →
    ∃ w', fill_slots ks hm shift size w (seq i n) = Done w' ∧
          walk_inv ks hm shift size (i + n) w'.
Proof.
  induction n as [|n IH]; intros i w Hsz Hinv; simpl.
  - exists w. by rewrite Nat.add_0_r.
  - destruct (fill_slot_inv i w) as (w1 & -> & Hinv1); [lia | done |].
    simpl. destruct (IH (S i) w1) as (w2 & -> & Hinv2); [lia | done |].
    exists w2. split; [done|]. by replace (i + S n)%nat with (S i + n)%nat by lia.
Qed.

(** The table that [Add] builds: it has [size] slots and each is as
    [slot_as_built] says. *)
Lemma build_table_spec :
  ∃ t, build_table ks hm shift size = Done t ∧
       length t = Z.to_nat size ∧
       ∀ j, (j < Z.to_nat size)%nat →
            t !! j = Some (slot_as_built ks hm shift (Z.of_nat j)).
Proof.
  unfold build_table. destruct ks_first as (k0 & ks0 & Eks).
  assert (index ks 0 = Done k0) as -> by (by rewrite Eks).
  simpl.
  destruct (fill_slots_inv (Z.to_nat size) 0
              (mkWalk (-1) 0 (k0 ≫ shift) (replicate (Z.to_nat size) EmptyString)))
    as (w & Hw & Hinv).
  - lia.
  - unfold walk_inv; simpl. split_and!.
    + lia.
    + left. exists [], k0, ks0. split_and!; try done.
      apply Z.shiftr_nonneg. pose proof ks_nonneg as Hnn.
      rewrite Eks in Hnn. by apply Forall_cons in Hnn as [? _].
    + by rewrite length_replicate.
    + intros; lia.
    + intros j _ Hj. by apply lookup_replicate_2.
  - rewrite Hw. simpl. destruct Hinv as (_ & _ & Hlen & Hbelow & _).
    exists (table w). repeat split; [done|]. intros j Hj. apply Hbelow; lia.
Qed.
End build_proofs.

(** ** Machine arithmetic *)

Lemma uint32_range z : 0 ≤ uint32 z < 2 ^ 32.
Proof. unfold uint32. apply Z.mod_pos_bound. lia. Qed.

Lemma Len32_range x : 0 ≤ x < 2 ^ 32 → 0 ≤ Len32 x ≤ 32.
Proof.
  intros [Hlo Hhi]. unfold Len32. destruct (Z.eqb_spec x 0) as [->|Hne]; [lia|].
  pose proof (Z.log2_nonneg x).
  assert (Z.log2 x < 32) by (apply Z.log2_lt_pow2; lia). lia.
Qed.

Lemma prefix_lt_size (h shift : Z) :
  0 ≤ shift ≤ 32 → 0 ≤ h < 2 ^ 32 → 0 ≤ h ≫ shift < 2 ^ (32 - shift).
Proof.
  intros Hs Hh. split; [apply Z.shiftr_nonneg; lia|].
  rewrite Z.shiftr_div_pow2 by lia.
  apply Z.div_lt_upper_bound; [apply Z.pow_pos_nonneg; lia|].
  rewrite <- Z.pow_add_r by lia. replace (shift + (32 - shift)) with 32 by lia. lia.
Qed.

(** ** What [Add] appends *)

Lemma add_member_spec fn r key (st : list Z * gmap Z string) :
  add_member fn r st key =
    foldl (λ st (p : Z * string), (st.1 ++ [p.1], <[p.1 := p.2]> st.2)) st
          ((λ i, (vnode fn key i, key)) <$> seq 0 (Z.to_nat r)).
Proof.
  unfold add_member. generalize (seq 0 (Z.to_nat r)) as l. intros l. revert st.
  induction l as [|i l IH]; intros st; simpl; [done|]. by rewrite IH.
Qed.

Lemma add_members_spec fn r names (st : list Z * gmap Z string) :
  add_members fn r names st =
    foldl (λ st (p : Z * string), (st.1 ++ [p.1], <[p.1 := p.2]> st.2)) st
          (vnodes fn r names).
Proof.
  unfold add_members, vnodes. revert st.
  induction names as [|key names IH]; intros st; simpl; [done|].
  rewrite foldl_app, <- add_member_spec. apply IH.
Qed.

Lemma insert_pairs_keys (ps : list (Z * string)) (st : list Z * gmap Z string) :
  (foldl (λ st (p : Z * string), (st.1 ++ [p.1], <[p.1 := p.2]> st.2)) st ps).1
  = st.1 ++ ps.*1.
Proof.
  revert st. induction ps as [|p ps IH]; intros st; simpl.
  - by rewrite app_nil_r.
  - rewrite IH. simpl. by rewrite <- app_assoc.
Qed.

(** The member recorded for a hash is the last one that was inserted for it. *)
Lemma insert_pairs_lookup (ps : list (Z * string)) (st : list Z * gmap Z string) h name :
  (foldl (λ st (p : Z * string), (st.1 ++ [p.1], <[p.1 := p.2]> st.2)) st ps).2 !! h
    = Some name →
  (h, name) ∈ ps ∨ (st.2 !! h = Some name ∧ h ∉ ps.*1).
Proof.
  revert st. induction ps as [|[ph pn] ps IH]; intros st; simpl.
  - intros ?. right. split; [done|]. apply not_elem_of_nil.
  - intros H. apply IH in H as [H|[H Hnot]]; [left; by right|].
    simpl in H. destruct (decide (ph = h)) as [->|Hne].
    + rewrite lookup_insert_eq in H. injection H as ->. left. left.
    + rewrite lookup_insert_ne in H by done. right. split; [done|].
      rewrite not_elem_of_cons. done.
Qed.

Lemma insert_pairs_is_Some (ps : list (Z * string)) (st : list Z * gmap Z string) h :
  is_Some ((foldl (λ st (p : Z * string), (st.1 ++ [p.1], <[p.1 := p.2]> st.2)) st ps).2 !! h)
  ↔ h ∈ ps.*1 ∨ is_Some (st.2 !! h).
Proof.
  revert st. induction ps as [|p ps IH]; intros st; simpl.
  - split; [by right|]. intros [H|H]; [by apply elem_of_nil in H | done].
  - rewrite IH. simpl. rewrite lookup_insert_is_Some, elem_of_cons.
    destruct (decide (p.1 = h)) as [Heq|Hne]; intuition congruence.
Qed.

Lemma vnodes_range fn r names : Forall (λ x, 0 ≤ x < 2 ^ 32) (vnodes fn r names).*1.
Proof.
  apply Forall_forall. intros h Hh. apply list_elem_of_fmap in Hh as ([h' name] & -> & Hin).
  unfold vnodes in Hin. apply list_elem_of_bind in Hin as (key & Hin & _).
  apply list_elem_of_fmap in Hin as (i & [= -> ->] & _). apply uint32_range.
Qed.

Lemma elem_of_vnodes fn r names h name :
  (h, name) ∈ vnodes fn r names ↔
  name ∈ names ∧ ∃ i, (Z.of_nat i < r) ∧ h = vnode fn name i.
Proof.
  unfold vnodes. rewrite list_elem_of_bind. split.
  - intros (key & Hin & Hkey). apply list_elem_of_fmap in Hin as (i & [= -> ->] & Hi).
    apply elem_of_seq in Hi. split; [done|]. exists i. split; [lia | done].
  - intros (Hname & i & Hi & ->). exists name. split; [|done].
    apply list_elem_of_fmap. exists i. split; [done|]. apply elem_of_seq. lia.
Qed.

Lemma vnodes_nil fn r names : r ≤ 0 ∨ names = [] → vnodes fn r names = [].
Proof.
  intros [Hr| ->]; [|done]. unfold vnodes.
  replace (Z.to_nat r) with 0%nat by lia.
  induction names as [|key names IH]; [done|]. by rewrite bind_cons, IH.
Qed.

Lemma vnodes_nonempty fn r names : 1 ≤ r → names ≠ [] → vnodes fn r names ≠ [].
Proof.
  intros Hr Hne. destruct names as [|key names]; [done|].
  unfold vnodes. simpl. destruct (Z.to_nat r) as [|n] eqn:E; [lia|]. done.
Qed.

Lemma vnodes_app fn r a b : vnodes fn r (a ++ b) = vnodes fn r a ++ vnodes fn r b.
Proof. unfold vnodes. by rewrite bind_app. Qed.

(** ** [Add] and the reachable rings *)

Lemma sort_Ints_sorted l : StronglySorted Z.le (sort_Ints l).
Proof. apply StronglySorted_merge_sort; apply _. Qed.

Lemma sort_Ints_perm l : sort_Ints l ≡ₚ l.
Proof. apply merge_sort_Permutation. Qed.

Lemma sort_Ints_elem_of l x : x ∈ sort_Ints l ↔ x ∈ l.
Proof. by rewrite sort_Ints_perm. Qed.

Lemma sort_Ints_nil l : sort_Ints l = [] ↔ l = [].
Proof.
  split; [|by intros ->]. intros H. apply Permutation_nil_r.
  rewrite <- H. symmetry. apply sort_Ints_perm.
Qed.

Lemma Add_unfold m names :
  Add m names =
    (let ks := keys_after m names in
     let bits := Len32 (uint32 (Z.of_nat (length ks) * prefixTableExpansion m)) in
     t ←! build_table ks (hashMap_after m names) (32 - bits) (2 ^ bits);
     Done {| hash := hash m; replicas := replicas m;
             prefixTableExpansion := prefixTableExpansion m;
             keys := ks; hashMap := hashMap_after m names;
             prefixShift := 32 - bits; prefixTable := t |}).
Proof.
  unfold Add, keys_after, hashMap_after. rewrite add_members_spec, insert_pairs_keys.
  cbv zeta. simpl. by rewrite Z.shiftl_1_l.
Qed.

(** [Add] panics exactly when the ring is still empty after the appends. *)
Lemma Add_Panics m names : keys_after m names = [] → Add m names = Panics.
Proof. intros H. rewrite Add_unfold. cbv zeta. rewrite H. done. Qed.

Lemma Add_Done m names :
  Forall (λ x, 0 ≤ x < 2 ^ 32) (keys m) → (replicas m ≤ 0 → keys m = []) →
  keys_after m names ≠ [] →
  ∃ m', Add m names = Done m' ∧
        hash m' = hash m ∧ replicas m' = replicas m ∧
        prefixTableExpansion m' = prefixTableExpansion m ∧
        keys m' = keys_after m names ∧ hashMap m' = hashMap_after m names ∧
        ring_ok m'.
Proof.
  intros Hrange Hrep Hne. rewrite Add_unfold. cbv zeta.
  set (ks := keys_after m names) in *.
  set (bits := Len32 (uint32 (Z.of_nat (length ks) * prefixTableExpansion m))).
  assert (Hks_range : Forall (λ x, 0 ≤ x < 2 ^ 32) ks).
  { unfold ks, keys_after. rewrite sort_Ints_perm. apply Forall_app. split; [done|].
    apply vnodes_range. }
  assert (Hbits : 0 ≤ bits ≤ 32).
  { apply Len32_range, uint32_range. }
  destruct (build_table_spec ks (hashMap_after m names) (32 - bits) (2 ^ bits))
    as (t & Ht & Hlen & Hslots).
  - apply sort_Ints_sorted.
  - done.
  - lia.
  - apply Z.pow_nonneg. lia.
  - eapply Forall_impl; [exact Hks_range|]. simpl. intros; lia.
  - rewrite Ht. simpl. eexists. split; [done|]. simpl. split_and!; try done.
    unfold ring_ok. simpl. split_and!.
    + apply sort_Ints_sorted.
    + done.
    + intros Hr. exfalso. apply Hne. unfold ks, keys_after.
      rewrite (Hrep Hr), vnodes_nil by (by left). done.
    + done.
    + intros _. replace (32 - (32 - bits)) with bits by lia.
      split_and!; [lia | lia | done |].
      intros j Hj. apply Hslots. lia.
Qed.

Lemma ring_ok_New r e fn : ring_ok (NewConsistentHash r e fn).
Proof.
  unfold ring_ok. simpl. split_and!; [constructor | constructor | done | done | done].
Qed.

Lemma Add_ring_ok m names m' : ring_ok m → Add m names = Done m' → ring_ok m'.
Proof.
  intros (Hs & Hrange & Hrep & _ & _) HAdd.
  destruct (decide (keys_after m names = [])) as [Hnil|Hne].
  - rewrite Add_Panics in HAdd by done. discriminate.
  - destruct (Add_Done m names Hrange Hrep Hne) as (m1 & HAdd1 & _ & _ & _ & _ & _ & Hok).
    rewrite HAdd in HAdd1. by injection HAdd1 as ->.
Qed.

Lemma reachable_ring_ok m : reachable m → ring_ok m.
Proof.
  induction 1 as [r e fn | m names m' _ IH HAdd].
  - apply ring_ok_New.
  - by eapply Add_ring_ok.
Qed.

Lemma AddAll_reachable m batches m' :
  reachable m → AddAll m batches = Done m' → reachable m'.
Proof.
  revert m. induction batches as [|names batches IH]; intros m Hm; simpl.
  - by intros [= <-].
  - intros H. apply obind_Done in H as (m1 & HAdd & Hrest).
    eapply IH; [|done]. by eapply reachable_Add.
Qed.

(** ** [Get] on a reachable ring *)

(** When no hash lies in the slot of [h], the hash after the slot is the
    one that serves [h]. *)
Lemma after_slot_successor (ks : list Z) (shift h : Z) :
  0 ≤ shift → in_slot ks shift (h ≫ shift) = [] →
  after_slot ks shift (h ≫ shift) = successor ks h.
Proof.
  intros Hs Hempty. unfold after_slot, successor. f_equal. f_equal.
  unfold in_slot in Hempty.
  induction ks as [|k ks IH]; [done|].
  rewrite filter_cons in Hempty. case_decide as Hk; [done|].
  rewrite !filter_cons, (IH Hempty).
  destruct (decide (h ≫ shift < k ≫ shift)) as [Hlt|Hge],
    (decide (h ≤ k)) as [Hle|Hgt]; try done.
  - pose proof (shiftr_mono k h shift Hs). lia.
  - pose proof (shiftr_mono h k shift Hs). lia.
Qed.

(** [Get] returns, and returns the member recorded for the hash that serves
    the key. *)
Lemma Get_successor m key :
  ring_ok m → keys m ≠ [] →
  ∃ h', successor (keys m) (uint32 (hash m key)) = Some h' ∧
        Get m key = Done (member (hashMap m) h').
Proof.
  intros (Hs & Hrange & _ & _ & Htab) Hne. destruct (Htab Hne) as (Hshift & Hlen & Hslots).
  destruct (successor_is_Some (keys m) (uint32 (hash m key)) Hne) as [h' Hh'].
  exists h'. split; [done|].
  unfold Get, IsEmpty. rewrite bool_decide_eq_false_2.
  2:{ intros H. by apply length_zero_iff_nil in H. }
  cbv zeta. set (h := uint32 (hash m key)) in *.
  pose proof (prefix_lt_size h (prefixShift m) Hshift (uint32_range _)) as Hslot.
  assert (Hin : (Z.to_nat (h ≫ prefixShift m) < length (prefixTable m))%nat).
  { rewrite Hlen. lia. }
  rewrite (index_lookup _ _ _ (Hslots _ Hin)). simpl.
  rewrite Z2Nat.id by lia.
  assert (Hfall : (k ←! index (keys m) (search_idx (keys m) h);
                   Done (member (hashMap m) k)) = Done (member (hashMap m) h')).
  { rewrite (index_lookup _ _ h'); [done|]. by rewrite search_idx_successor. }
  case_bool_decide as Hnonempty; [|done].
  unfold slot_as_built in *.
  destruct (in_slot (keys m) (prefixShift m) (h ≫ prefixShift m)) eqn:Eslot;
    [|simpl in Hnonempty; lia].
  rewrite after_slot_successor, Hh' in * by (done || lia). done.
Qed.

(** ** The lookup of the ring *)



(** ** The prefix table against the plain binary search *)

Lemma Add_result m names m' :
  Add m names = Done m' →
  hash m' = hash m ∧ replicas m' = replicas m ∧
  keys m' = keys_after m names ∧ hashMap m' = hashMap_after m names.
Proof.
  rewrite Add_unfold. cbv zeta. intros H.
  apply obind_Done in H as (t & _ & [= <-]). done.
Qed.

Lemma Plain_Add_result (p : Plain.Map) names :
  Plain.keys (Plain.Add p names)
    = sort_Ints (Plain.keys p ++ (vnodes (Plain.hash p) (Plain.replicas p) names).*1) ∧
  Plain.hashMap (Plain.Add p names)
    = (foldl (λ st (q : Z * string), (st.1 ++ [q.1], <[q.1 := q.2]> st.2))
             (Plain.keys p, Plain.hashMap p)
             (vnodes (Plain.hash p) (Plain.replicas p) names)).2.
Proof.
  unfold Plain.Add. simpl. by rewrite add_members_spec, insert_pairs_keys.
Qed.

Lemma AddAll_same_ring batches :
  ∀ (m m' : Map) (p : Plain.Map),
    hash m = Plain.hash p → replicas m = Plain.replicas p →
    keys m = Plain.keys p → hashMap m = Plain.hashMap p →
    AddAll m batches = Done m' →
    hash m' = Plain.hash (Plain.AddAll p batches) ∧
    keys m' = Plain.keys (Plain.AddAll p batches) ∧
    hashMap m' = Plain.hashMap (Plain.AddAll p batches).
Proof.
  induction batches as [|names batches IH]; intros m m' p Hh Hr Hk Hhm; simpl.
  - intros [= <-]. done.
  - intros H. apply obind_Done in H as (m1 & HAdd & Hrest).
    apply Add_result in HAdd as (Hh1 & Hr1 & Hk1 & Hhm1).
    destruct (Plain_Add_result p names) as [Hpk Hphm].
    apply (IH m1 m' (Plain.Add p names)); try done.
    + by rewrite Hh1.
    + by rewrite Hr1.
    + rewrite Hk1, Hpk. unfold keys_after. by rewrite Hh, Hr, Hk.
    + rewrite Hhm1, Hphm. unfold hashMap_after. by rewrite Hh, Hr, Hk, Hhm.
Qed.

Lemma Plain_Get_successor (p : Plain.Map) key h' :
  StronglySorted Z.le (Plain.keys p) → Plain.keys p ≠ [] →
  successor (Plain.keys p) (uint32 (Plain.hash p key)) = Some h' →
  Plain.Get p key = Done (member (Plain.hashMap p) h').
Proof.
  intros Hs Hne Hsucc. unfold Plain.Get, Plain.IsEmpty, Plain.getKeyFromHash.
  rewrite bool_decide_eq_false_2.
  2:{ intros H. by apply length_zero_iff_nil in H. }
  cbv zeta. rewrite (index_lookup _ _ h'); [done|]. by rewrite search_idx_successor.
Qed.

(** Once the ring has a hash, every further [Add] returns. *)
Lemma AddAll_returns batches :
  ∀ m, reachable m → keys m ≠ [] →
       ∃ m', AddAll m batches = Done m' ∧ keys m' ≠ [].
Proof.
  induction batches as [|names batches IH]; intros m Hm Hne; simpl.
  - by exists m.
  - destruct (reachable_ring_ok m Hm) as (_ & Hrange & Hrep & _).
    assert (Hafter : keys_after m names ≠ []).
    { unfold keys_after. rewrite sort_Ints_nil. intros E.
      by apply app_eq_nil in E as [Ek _]. }
    destruct (Add_Done m names Hrange Hrep Hafter) as (m1 & HAdd & _ & _ & _ & Hk & _).
    rewrite HAdd. simpl. apply IH.
    + by eapply reachable_Add.
    + by rewrite Hk.
Qed.

(** The first [Add] on a new ring returns when there is a replica and a
    name, and so do all the calls after it. *)
Lemma AddAll_first_returns r e fn names rest :
  1 ≤ r → names ≠ [] →
  ∃ m, AddAll (NewConsistentHash r e fn) (names :: rest) = Done m ∧ keys m ≠ [].
Proof.
  intros Hr Hnames. simpl.
  assert (Hafter : keys_after (NewConsistentHash r e fn) names ≠ []).
  { unfold keys_after. rewrite sort_Ints_nil. simpl. intros E.
    apply fmap_nil_inv in E.
    by apply (vnodes_nonempty (default ChecksumIEEE fn) r) in Hnames. }
  destruct (Add_Done (NewConsistentHash r e fn) names)
    as (m1 & HAdd & _ & _ & _ & Hk & _); [constructor | done | done |].
  rewrite HAdd. simpl. apply AddAll_returns.
  - eapply reachable_Add; [apply reachable_New | done].
  - by rewrite Hk.
Qed.

(** The ring that only binary-searches is empty after an [Add] without
    replicas or without names, and answers the empty string. *)
Lemma Plain_Get_nothing_added r fn names key :
  r ≤ 0 ∨ names = [] →
  Plain.Get (Plain.Add (Plain.New r fn) names) key = Done EmptyString.
Proof.
  intros H. unfold Plain.Get, Plain.IsEmpty.
  destruct (Plain_Add_result (Plain.New r fn) names) as [-> _]. simpl.
  rewrite vnodes_nil by done. simpl.
  replace (sort_Ints []) with (@nil Z) by (symmetry; by apply sort_Ints_nil).
  done.
Qed.

(** C2, amended: for every hash function, sequence of [Add] calls and key,
    the ring with the prefix table and the ring that only binary-searches,
    built by the same calls, return the same member, and whenever the slot
    of the key in the prefix table is not empty, it holds the member that
    the binary search returns.  The calls of the ring with the prefix table
    all return when there is none, or when there is a replica and the first
    call has a name; otherwise its [Add] panics where the ring that only
    binary-searches stays empty and answers the empty string. *)
Theorem Get_refines_Plain_Get (r e : Z) (fn : option Hash)
    (batches : list (list string)) (key : string) :
  (∀ m, AddAll (NewConsistentHash r e fn) batches = Done m →
        Get m key = Plain.Get (Plain.AddAll (Plain.New r fn) batches) key ∧
        ∀ t, prefixTable m !! Z.to_nat (uint32 (hash m key) ≫ prefixShift m) = Some t →
             t ≠ EmptyString →
             Plain.Get (Plain.AddAll (Plain.New r fn) batches) key = Done t) ∧
  (batches = [] ∨ (1 ≤ r ∧ ∃ names rest, batches = names :: rest ∧ names ≠ []) →
     ∃ m, AddAll (NewConsistentHash r e fn) batches = Done m) ∧
  (∀ names rest, batches = names :: rest → r ≤ 0 ∨ names = [] →
     AddAll (NewConsistentHash r e fn) batches = Panics ∧
     Plain.Get (Plain.Add (Plain.New r fn) names) key = Done EmptyString).
Proof.
  split_and!.
  - intros m HAll.
    assert (Hm : reachable m) by (eapply AddAll_reachable; [apply reachable_New | done]).
    pose proof (reachable_ring_ok m Hm) as Hok.
    destruct (AddAll_same_ring batches (NewConsistentHash r e fn) m (Plain.New r fn))
      as (Hh & Hk & Hhm); try done.
    set (p := Plain.AddAll (Plain.New r fn) batches) in *.
    destruct (decide (keys m = [])) as [Hnil|Hne].
    + (* both rings are empty *)
      assert (Get m key = Done EmptyString) as HG.
      { unfold Get, IsEmpty. by rewrite Hnil. }
      assert (Plain.Get p key = Done EmptyString) as HP.
      { unfold Plain.Get, Plain.IsEmpty. by rewrite <- Hk, Hnil. }
      split; [by rewrite HG, HP|].
      intros t Ht _. destruct Hok as (_ & _ & _ & Htab & _).
      by rewrite (Htab Hnil), lookup_nil in Ht.
    + destruct (Get_successor m key Hok Hne) as (h' & Hsucc & HGet).
      assert (HP : Plain.Get p key = Done (member (hashMap m) h')).
      { rewrite Hhm. apply Plain_Get_successor.
        - rewrite <- Hk. apply Hok.
        - by rewrite <- Hk.
        - by rewrite <- Hk, <- Hh. }
      split; [by rewrite HGet, HP|].
      intros t Ht Hnonempty. rewrite HP, <- HGet.
      unfold Get, IsEmpty. rewrite bool_decide_eq_false_2.
      2:{ intros H. by apply length_zero_iff_nil in H. }
      cbv zeta. rewrite (index_lookup _ _ _ Ht). simpl.
      rewrite bool_decide_eq_true_2; [done|].
      destruct t; [done | simpl; lia].
  - intros [->|(Hr & names & rest & -> & Hnames)].
    + by eexists.
    + destruct (AddAll_first_returns r e fn names rest Hr Hnames) as (m & Hm & _).
      by exists m.
  - intros names rest -> Hnothing. split.
    + simpl. rewrite Add_Panics; [done|].
      unfold keys_after. simpl. by rewrite vnodes_nil.
    + by apply Plain_Get_nothing_added.
Qed.

(** The ring of [TestHashing] after both calls of [Add], asked for the key
    33554432: with 12 hashes the table has 128 slots of width 2^25, the key
    falls into slot 1, which no hash falls into, and the slot holds "2",
    the member of the first hash of the ring. *)
Lemma Get_refines_Plain_Get_witness :
  AddAll (NewConsistentHash 3 6 (Some atoiHash)) [["6"; "4"; "2"]; ["8"]]%string
    = Done testRing8 ∧
  Z.to_nat (uint32 (hash testRing8 "33554432") ≫ prefixShift testRing8) = 1%nat ∧
  prefixTable testRing8 !! 1%nat = Some "2"%string ∧
  Get testRing8 "33554432"
    = Plain.Get (Plain.AddAll (Plain.New 3 (Some atoiHash))
                              [["6"; "4"; "2"]; ["8"]]%string) "33554432" ∧
  Plain.Get (Plain.AddAll (Plain.New 3 (Some atoiHash))
                          [["6"; "4"; "2"]; ["8"]]%string) "33554432" = Done "2"%string.
Proof.
  assert (HAll : AddAll (NewConsistentHash 3 6 (Some atoiHash))
                        [["6"; "4"; "2"]; ["8"]]%string = Done testRing8).
  { returned_with (NewConsistentHash 3 6 (Some atoiHash)). }
  assert (Hslot : Z.to_nat (uint32 (hash testRing8 "33554432") ≫ prefixShift testRing8)
                  = 1%nat).
  { vm_compute. reflexivity. }
  assert (Htab : prefixTable testRing8 !! 1%nat = Some "2"%string).
  { vm_compute. reflexivity. }
  destruct (Get_refines_Plain_Get 3 6 (Some atoiHash) [["6"; "4"; "2"]; ["8"]]%string
              "33554432") as (Hsame & _ & _).
  destruct (Hsame testRing8 HAll) as [Hagree Hfast].
  split_and!; [exact HAll | exact Hslot | exact Htab | exact Hagree |].
  apply Hfast; [by rewrite Hslot | discriminate].
Defined.

(** C2 as stated fails where [Add] panics: on a new ring with 3 replicas,
    [Add] without names panics on the ring with the prefix table, and on a
    ring with no replicas [Add] of three names does; the ring that only
    binary-searches takes both calls and answers the empty string. *)
Lemma Get_refines_panic_counterexample :
  Add (NewConsistentHash 3 6 (Some atoiHash)) [] = Panics ∧
  Plain.Get (Plain.Add (Plain.New 3 (Some atoiHash)) []) "27" = Done EmptyString ∧
  Add (NewConsistentHash 0 6 (Some atoiHash)) ["6"; "4"; "2"]%string = Panics ∧
  Plain.Get (Plain.Add (Plain.New 0 (Some atoiHash)) ["6"; "4"; "2"]%string) "27"
    = Done EmptyString.
Proof. vm_compute. repeat split. Qed.

(** ** Where [Add] returns and where it panics *)

(** C9: [Add] is partial.  On a ring with at least one replica per member,
    a call with a name, or on a ring that already has hashes, returns and
    leaves [keys] non-empty (no index of the table build is out of range);
    a call without names on a ring without hashes, and every call on a ring
    made with no replicas, reads [m.keys[0]] of an empty slice and panics. *)
Theorem Add_partial :
  (∀ m names, reachable m → 1 ≤ replicas m → names ≠ [] ∨ keys m ≠ [] →
              ∃ m', Add m names = Done m' ∧ keys m' ≠ []) ∧
  (∀ m, keys m = [] → Add m [] = Panics) ∧
  (∀ m names, reachable m → replicas m ≤ 0 → Add m names = Panics).
Proof.
  split_and!.
  - intros m names Hm Hr Hsome.
    destruct (reachable_ring_ok m Hm) as (_ & Hrange & Hrep & _).
    assert (Hne : keys_after m names ≠ []).
    { unfold keys_after. rewrite sort_Ints_nil. intros E.
      apply app_eq_nil in E as [Ek Ev]. destruct Hsome as [Hn|Hk]; [|done].
      apply fmap_nil_inv in Ev. by apply (vnodes_nonempty (hash m) (replicas m)) in Hn. }
    destruct (Add_Done m names Hrange Hrep Hne) as (m' & HAdd & _ & _ & _ & Hk & _).
    exists m'. split; [done|]. by rewrite Hk.
  - intros m Hk. apply Add_Panics. unfold keys_after. by rewrite Hk.
  - intros m names Hm Hr.
    destruct (reachable_ring_ok m Hm) as (_ & _ & Hrep & _).
    apply Add_Panics. unfold keys_after.
    rewrite (Hrep Hr), vnodes_nil by (by left). done.
Qed.

Lemma Add_partial_witness :
  (∃ m', Add (New 50 None) ["peer"]%string = Done m' ∧ keys m' ≠ []) ∧
  Add (New 50 None) [] = Panics ∧
  Add (New 0 None) ["peer"]%string = Panics.
Proof.
  destruct Add_partial as (Hreturns & Hnone & Hzero). split_and!.
  - apply Hreturns; [apply reachable_New | simpl; lia | by left].
  - by apply Hnone.
  - apply Hzero; [apply reachable_New | simpl; lia].
Defined.

(** ** The slots of the prefix table *)

(** C6, amended: in the table built by [Add], a slot that no hash falls
    into holds the member of the hash that follows it in ring order, and a
    slot that some hash falls into holds the empty string. *)
Theorem prefixTable_slots (m : Map) (i : nat) :
  reachable m → IsEmpty m = false → (i < length (prefixTable m))%nat →
  length (prefixTable m) = Z.to_nat (2 ^ (32 - prefixShift m)) ∧
  (in_slot (keys m) (prefixShift m) (Z.of_nat i) = [] →
     ∃ nxt, after_slot (keys m) (prefixShift m) (Z.of_nat i) = Some nxt ∧
            prefixTable m !! i = Some (member (hashMap m) nxt)) ∧
  (in_slot (keys m) (prefixShift m) (Z.of_nat i) ≠ [] →
     prefixTable m !! i = Some EmptyString).
Proof.
  intros Hm Hne Hi. destruct (reachable_ring_ok m Hm) as (_ & _ & _ & _ & Htab).
  assert (keys m ≠ []) as Hks.
  { intros E. unfold IsEmpty in Hne. rewrite E in Hne. done. }
  destruct (Htab Hks) as (_ & Hlen & Hslots). split; [done|].
  rewrite (Hslots i Hi). unfold slot_as_built, after_slot. split.
  - intros ->. destruct (filter _ (keys m) ++ keys m) as [|nxt l] eqn:E.
    + apply app_eq_nil in E as [_ E]. done.
    + exists nxt. done.
  - intros Hin. by destruct (in_slot (keys m) (prefixShift m) (Z.of_nat i)).
Qed.

Lemma prefixTable_slots_witness :
  length (prefixTable singleRing) = Z.to_nat (2 ^ (32 - prefixShift singleRing)) ∧
  (in_slot (keys singleRing) (prefixShift singleRing) (Z.of_nat 1) = [] →
     ∃ nxt, after_slot (keys singleRing) (prefixShift singleRing) (Z.of_nat 1) = Some nxt ∧
            prefixTable singleRing !! 1%nat = Some (member (hashMap singleRing) nxt)) ∧
  (in_slot (keys singleRing) (prefixShift singleRing) (Z.of_nat 1) ≠ [] →
     prefixTable singleRing !! 1%nat = Some EmptyString).
Proof.
  apply (prefixTable_slots singleRing 1).
  - apply (reachable_Add (NewConsistentHash 1 6 (Some atoiHash)) ["7"]%string);
      [apply reachable_New|].
    returned_with (NewConsistentHash 1 6 (Some atoiHash)).
  - vm_compute. reflexivity.
  - vm_compute. lia.
Defined.

(** C6 as stated fails on a ring with one member: the hash 7 of its only
    virtual node falls into slot 0 and is also the hash that follows the
    slot, so every hash involved maps to the member "7"; the slot is
    nevertheless empty. *)
Lemma prefixTable_slot_counterexample :
  Add (NewConsistentHash 1 6 (Some atoiHash)) ["7"]%string = Done singleRing ∧
  keys singleRing = [7] ∧ prefixShift singleRing = 29 ∧
  in_slot (keys singleRing) (prefixShift singleRing) 0 = [7] ∧
  after_slot (keys singleRing) (prefixShift singleRing) 0 = Some 7 ∧
  member (hashMap singleRing) 7 = "7"%string ∧
  slot_as_specified singleRing 0 = "7"%string ∧
  prefixTable singleRing !! 0%nat = Some EmptyString.
Proof.
  split; [returned_with (NewConsistentHash 1 6 (Some atoiHash))|].
  vm_compute. repeat split.
Qed.

(** ** Independence of the order of insertion *)

(** The hashes and members of a ring that was filled by [AddAll]. *)
Lemma AddAll_contents batches :
  ∀ m m', AddAll m batches = Done m' →
    hash m' = hash m ∧ replicas m' = replicas m ∧
    (∀ h, h ∈ keys m' ↔
          h ∈ keys m ∨ h ∈ (vnodes (hash m) (replicas m) (concat batches)).*1) ∧
    (∀ h name, hashMap m' !! h = Some name →
          hashMap m !! h = Some name ∨
          (h, name) ∈ vnodes (hash m) (replicas m) (concat batches)) ∧
    (∀ h, h ∈ (vnodes (hash m) (replicas m) (concat batches)).*1 →
          is_Some (hashMap m' !! h)).
Proof.
  induction batches as [|names batches IH]; intros m m'; simpl.
  - intros [= <-]. split_and!; try done.
    + intros h. split; [by left|]. intros [?|H]; [done | by apply elem_of_nil in H].
    + intros h name ?. by left.
    + intros h H. by apply elem_of_nil in H.
  - intros H. apply obind_Done in H as (m1 & HAdd & Hrest).
    apply Add_result in HAdd as (Hh1 & Hr1 & Hk1 & Hhm1).
    destruct (IH m1 m' Hrest) as (Hh & Hr & Hkeys & Hmem & Hsome).
    rewrite Hh1, Hr1 in *. rewrite vnodes_app, fmap_app.
    split_and!; try done.
    + intros h. rewrite Hkeys, Hk1. unfold keys_after.
      rewrite sort_Ints_elem_of, !elem_of_app. tauto.
    + intros h name Hl. rewrite elem_of_app.
      apply Hmem in Hl as [Hl|Hl]; [|tauto].
      rewrite Hhm1 in Hl. unfold hashMap_after in Hl.
      apply insert_pairs_lookup in Hl. simpl in Hl. tauto.
    + intros h Hin. apply elem_of_app in Hin as [Hin|Hin]; [|by apply Hsome].
      assert (is_Some (hashMap m1 !! h)) as [name Hname].
      { rewrite Hhm1. unfold hashMap_after. apply insert_pairs_is_Some. by left. }
      (* a later insertion may replace the member, never remove the hash *)
      clear -Hrest Hname. revert m1 name Hrest Hname.
      induction batches as [|b bs IHb]; intros m1 name Hrest Hname; simpl in Hrest.
      * injection Hrest as <-. eauto.
      * apply obind_Done in Hrest as (m2 & HAdd & Hrest).
        apply Add_result in HAdd as (_ & _ & _ & Hhm2).
        assert (is_Some (hashMap m2 !! h)) as [name2 Hname2].
        { rewrite Hhm2. unfold hashMap_after. apply insert_pairs_is_Some.
          right. simpl. eauto. }
        by apply (IHb m2 name2).
Qed.

(** C4, amended: two rings made with the same hash function and replica
    count from the same set of members, whatever the batches and their
    order, answer alike for every key, provided no two different members
    share a virtual-node hash. *)
Theorem Get_order_independent (r e1 e2 : Z) (fn : option Hash)
    (batches1 batches2 : list (list string)) (m1 m2 : Map) :
  AddAll (NewConsistentHash r e1 fn) batches1 = Done m1 →
  AddAll (NewConsistentHash r e2 fn) batches2 = Done m2 →
  (∀ name, name ∈ concat batches1 ↔ name ∈ concat batches2) →
  collision_free (default ChecksumIEEE fn) r (concat batches1) →
  ∀ key, Get m1 key = Get m2 key.
Proof.
  intros H1 H2 Hset Hfree key.
  assert (Hr1 : reachable m1) by (eapply AddAll_reachable; [apply reachable_New | done]).
  assert (Hr2 : reachable m2) by (eapply AddAll_reachable; [apply reachable_New | done]).
  pose proof (reachable_ring_ok m1 Hr1) as Hok1.
  pose proof (reachable_ring_ok m2 Hr2) as Hok2.
  destruct (AddAll_contents _ _ _ H1) as (Hh1 & Hrep1 & Hk1 & Hm1 & Hs1).
  destruct (AddAll_contents _ _ _ H2) as (Hh2 & Hrep2 & Hk2 & Hm2 & Hs2).
  simpl in *. set (f := default ChecksumIEEE fn) in *.
  assert (Hsame : ∀ h, h ∈ (vnodes f r (concat batches1)).*1 ↔
                       h ∈ (vnodes f r (concat batches2)).*1).
  { intros h. rewrite !list_elem_of_fmap. split.
    - intros ([h0 name] & -> & Hin). exists (h0, name). split; [done|].
      apply elem_of_vnodes in Hin as [Hname Hi]. apply elem_of_vnodes.
      split; [by apply Hset | done].
    - intros ([h0 name] & -> & Hin). exists (h0, name). split; [done|].
      apply elem_of_vnodes in Hin as [Hname Hi]. apply elem_of_vnodes.
      split; [by apply Hset | done]. }
  assert (Hkeys : ∀ h, h ∈ keys m1 ↔ h ∈ keys m2).
  { intros h. rewrite Hk1, Hk2, Hsame. split; (intros [H|H]; [by apply elem_of_nil in H | by right]). }
  destruct (decide (keys m1 = [])) as [Hnil1|Hne1].
  - assert (keys m2 = []) as Hnil2.
    { destruct (keys m2) as [|k ks] eqn:E; [done|].
      assert (k ∈ keys m1) as Hin by (apply Hkeys; left).
      rewrite Hnil1 in Hin. by apply elem_of_nil in Hin. }
    unfold Get, IsEmpty. by rewrite Hnil1, Hnil2.
  - assert (keys m2 ≠ []) as Hne2.
    { intros Hnil2. destruct (keys m1) as [|k ks] eqn:E; [done|].
      assert (k ∈ keys m2) as Hin by (apply Hkeys; left).
      rewrite Hnil2 in Hin. by apply elem_of_nil in Hin. }
    destruct (Get_successor m1 key Hok1 Hne1) as (h1 & Hsucc1 & ->).
    destruct (Get_successor m2 key Hok2 Hne2) as (h2 & Hsucc2 & ->).
    apply successor_serves in Hsucc1; [|apply Hok1].
    apply successor_serves in Hsucc2; [|apply Hok2].
    rewrite Hh1, Hh2 in *. simpl in *.
    assert (h1 = h2) as <- by (eapply serves_unique; [exact Hkeys | done | done]).
    f_equal. unfold member.
    assert (h1 ∈ (vnodes f r (concat batches1)).*1) as Hv1.
    { destruct Hsucc1 as [Hin _]. apply Hk1 in Hin as [Hin|Hin]; [|done].
      by apply elem_of_nil in Hin. }
    destruct (Hs1 h1 Hv1) as [n1 Hn1].
    destruct (Hs2 h1 (proj1 (Hsame h1) Hv1)) as [n2 Hn2].
    rewrite Hn1, Hn2. simpl. f_equal.
    apply Hm1 in Hn1 as [Hn1|Hn1]; [by rewrite lookup_empty in Hn1|].
    apply Hm2 in Hn2 as [Hn2|Hn2]; [by rewrite lookup_empty in Hn2|].
    apply elem_of_vnodes in Hn1 as (Hin1 & i & Hi & Hv).
    apply elem_of_vnodes in Hn2 as (Hin2 & j & Hj & Hw).
    apply (Hfree n1 n2 i j); [done | by apply Hset | done | done | congruence].
Qed.

Lemma Get_order_independent_witness : Get orderRing1 "3" = Get orderRing2 "3".
Proof.
  apply (Get_order_independent 1 6 6 (Some atoiHash)
           [["2"]; ["4"]]%string [["4"; "2"]]%string orderRing1 orderRing2).
  - returned_with (NewConsistentHash 1 6 (Some atoiHash)).
  - returned_with (NewConsistentHash 1 6 (Some atoiHash)).
  - intros name. simpl. rewrite !elem_of_cons. tauto.
  - intros a b i j Ha Hb Hi Hj. assert (i = 0%nat) as -> by lia.
    assert (j = 0%nat) as -> by lia. simpl in Ha, Hb.
    rewrite !elem_of_cons in Ha, Hb.
    destruct Ha as [->|[->|Ha]], Hb as [->|[->|Hb]];
      try done; try (by apply elem_of_nil in Ha); try (by apply elem_of_nil in Hb);
      vm_compute; discriminate.
Defined.

(** C4 as stated fails when two members share a hash.  With the hash of the
    tests (the key read as a number) and three replicas, virtual node 1 of
    "2" and virtual node 0 of "12" both hash to 12, and [hashMap] keeps the
    member that was inserted last. *)
Lemma Get_order_counterexample :
  AddAll (NewConsistentHash 3 6 (Some atoiHash)) [["2"; "12"]]%string = Done collideRing1 ∧
  AddAll (NewConsistentHash 3 6 (Some atoiHash)) [["12"; "2"]]%string = Done collideRing2 ∧
  (∀ name, name ∈ concat [["2"; "12"]]%string ↔ name ∈ concat [["12"; "2"]]%string) ∧
  vnode atoiHash "2" 1 = 12 ∧ vnode atoiHash "12" 0 = 12 ∧
  Get collideRing1 "12" = Done "12"%string ∧ Get collideRing2 "12" = Done "2"%string.
Proof.
  split; [returned_with (NewConsistentHash 3 6 (Some atoiHash))|].
  split; [returned_with (NewConsistentHash 3 6 (Some atoiHash))|].
  split; [intros name; simpl; rewrite !elem_of_cons; tauto|].
  vm_compute. repeat split.
Qed.

(** ** [GetN]: the walk around the ring *)

Lemma Plain_reachable_ok (p : Plain.Map) : Plain.reachable p → plain_ok p.
Proof.
  induction 1 as [r fn | p names _ [Hs Hdom]].
  - split; [constructor|]. intros h. simpl. rewrite lookup_empty. split.
    + by intros [? ?].
    + intros H. by apply elem_of_nil in H.
  - destruct (Plain_Add_result p names) as [Hk Hhm]. split.
    + rewrite Hk. apply sort_Ints_sorted.
    + intros h. rewrite Hk, Hhm, insert_pairs_is_Some, sort_Ints_elem_of, elem_of_app.
      simpl. rewrite Hdom. tauto.
Qed.

Lemma remove_dups_sorted (l : list Z) :
  StronglySorted Z.le l → StronglySorted Z.lt (remove_dups l).
Proof.
  induction 1 as [|x l Hs IH Hall]; simpl; [constructor|].
  case_decide as Hin; [done|]. constructor; [done|].
  apply Forall_forall. intros y Hy. rewrite elem_of_remove_dups in Hy.
  rewrite Forall_forall in Hall. specialize (Hall y Hy).
  assert (x ≠ y) by (by intros ->). lia.
Qed.

Lemma sorted_lt_le (l : list Z) : StronglySorted Z.lt l → StronglySorted Z.le l.
Proof.
  induction 1 as [|x l Hs IH Hall]; constructor; [done|].
  eapply Forall_impl; [exact Hall|]. simpl. intros; lia.
Qed.

(** On a sorted ring the successor does not see repeated hashes. *)
Lemma successor_remove_dups (ks : list Z) h :
  StronglySorted Z.le ks → successor ks h = successor (remove_dups ks) h.
Proof.
  intros Hs. destruct ks as [|k ks'] eqn:E; [done|]. rewrite <- E in *.
  assert (ks ≠ []) as Hne by (by rewrite E).
  assert (remove_dups ks ≠ []) as Hne'.
  { intros Hnil. assert (k ∈ remove_dups ks) as Hin.
    { apply elem_of_remove_dups. rewrite E. left. }
    rewrite Hnil in Hin. by apply elem_of_nil in Hin. }
  destruct (successor_is_Some ks h Hne) as [a Ha].
  destruct (successor_is_Some (remove_dups ks) h Hne') as [b Hb].
  rewrite Ha, Hb. f_equal.
  apply (serves_unique ks (remove_dups ks) h).
  - intros x. by rewrite elem_of_remove_dups.
  - by apply successor_serves.
  - apply successor_serves; [|done]. by apply sorted_lt_le, remove_dups_sorted.
Qed.

Section rotation.
Variable d : list Z.
Hypothesis d_sorted : StronglySorted Z.lt d.

(** Inside the ring: the hash after [x] is the next one. *)
Lemma successor_next u x y v :
  d = u ++ x :: y :: v → successor d (x + 1) = Some y.
Proof.
  intros Hd. pose proof d_sorted as Hs. rewrite Hd in Hs.
  apply StronglySorted_app in Hs as (Hcross & _ & Hs).
  apply StronglySorted_cons in Hs as [Hx Hs].
  unfold successor. rewrite Hd at 1.
  rewrite filter_app, filter_none.
  2:{ apply Forall_forall. intros z Hz. specialize (Hcross z x Hz). 
      assert (z < x) by (apply Hcross; left). lia. }
  rewrite filter_cons_False by lia.
  apply Forall_cons in Hx as [Hxy _].
  rewrite filter_cons_True by lia. done.
Qed.

(** At the end of the ring: the hash after the last one is the first. *)
Lemma successor_wrap u x y v :
  d = y :: v → d = u ++ [x] → successor d (x + 1) = Some y.
Proof.
  intros Hhead Hlast. pose proof d_sorted as Hs. rewrite Hlast in Hs.
  apply StronglySorted_app in Hs as (Hcross & _ & _).
  unfold successor. rewrite filter_none; [by rewrite Hhead|].
  rewrite Hlast. apply Forall_app. split.
  - apply Forall_forall. intros z Hz.
    assert (z < x) by (apply Hcross; [done | left]). lia.
  - repeat constructor. lia.
Qed.

(** Two neighbours of the ring read from any starting point. *)
Lemma successor_rotation lo hi pre x y rest :
  d = lo ++ hi → hi ++ lo = pre ++ x :: y :: rest →
  successor d (x + 1) = Some y.
Proof.
  intros Hd Hrot. apply app_eq_app in Hrot as [l [[Hhi Hl]|[Hpre Hlo]]].
  - destruct l as [|x' [|y' l]]; simpl in Hl.
    + apply (successor_next [] x y (rest ++ hi)).
      by rewrite Hd, <- Hl.
    + injection Hl as <- <-.
      apply (successor_wrap (y :: rest ++ pre) x y (rest ++ hi)).
      * by rewrite Hd.
      * rewrite Hd, Hhi. simpl. by rewrite <- !app_assoc.
    + injection Hl as <- <- Hrest.
      apply (successor_next (lo ++ pre) x y l).
      rewrite Hd, Hhi. by rewrite <- app_assoc.
  - apply (successor_next l x y (rest ++ hi)).
    rewrite Hd, Hlo. by rewrite <- app_assoc.
Qed.
End rotation.

Lemma ring_from_split (ks : list Z) h :
  StronglySorted Z.le ks →
  ∃ lo hi, remove_dups ks = lo ++ hi ∧ ring_from ks h = hi ++ lo ∧
           Forall (λ x, x < h) lo ∧ Forall (λ x, h ≤ x) hi.
Proof.
  intros Hs. pose proof (sorted_lt_le _ (remove_dups_sorted _ Hs)) as Hd.
  destruct (filter_sorted_split (remove_dups ks) h Hd) as (lo & hi & Hsplit & Hlo & Hhi).
  exists lo, hi. split_and!; try done.
  unfold ring_from. cbv zeta. rewrite Hsplit, !filter_app.
  rewrite (filter_none (λ x, h ≤ x) lo), (filter_all (λ x, h ≤ x) hi),
          (filter_all (λ x, x < h) lo), (filter_none (λ x, x < h) hi); try done.
  - by rewrite app_nil_r.
  - eapply Forall_impl; [exact Hhi|]. simpl. intros; lia.
  - eapply Forall_impl; [exact Hlo|]. simpl. intros; lia.
Qed.

(** The ring read from [h] starts with the hash that serves [h]. *)
Lemma ring_from_head (ks : list Z) h :
  StronglySorted Z.le ks → head (ring_from ks h) = successor ks h.
Proof.
  intros Hs. rewrite successor_remove_dups by done.
  destruct (ring_from_split ks h Hs) as (lo & hi & Hd & -> & Hlo & Hhi).
  unfold successor. rewrite Hd, filter_app, filter_none, filter_all; try done.
  - destruct hi as [|x hi]; simpl; [by rewrite app_nil_r | done].
  - eapply Forall_impl; [exact Hlo|]. simpl. intros; lia.
Qed.

Section walk.
Variables (p : Plain.Map) (n : Z) (accept : list string → string → bool).
Hypothesis p_ok : plain_ok p.

(** The loop of [GetN] visits the hashes that follow the current one in
    ring order and chooses among their members as [choose] does. *)
Lemma GetN_loop_spec h (rest : list Z) :
  ∀ pre x out,
    ring_from (Plain.keys p) h = pre ++ x :: rest →
    Plain.GetN_loop p n accept (length rest) x out
      = Done (choose n accept out (member (Plain.hashMap p) <$> rest)).
Proof.
  destruct p_ok as [Hs _].
  destruct (ring_from_split (Plain.keys p) h Hs) as (lo & hi & Hd & Hrot & _ & _).
  induction rest as [|y rest IH]; intros pre x out Hring; simpl; [done|].
  case_bool_decide as Hlen; [|done].
  assert (Plain.getKeyFromHash p (x + 1) = Done y) as ->.
  { unfold Plain.getKeyFromHash. apply index_lookup.
    rewrite search_idx_successor, successor_remove_dups by done.
    apply (successor_rotation _ (remove_dups_sorted _ Hs) lo hi pre x y rest Hd).
    by rewrite <- Hrot. }
  simpl.
  assert (Hring' : ring_from (Plain.keys p) h = (pre ++ [x]) ++ y :: rest).
  { by rewrite <- app_assoc. }
  destruct (accept out (member (Plain.hashMap p) y)); by apply (IH (pre ++ [x])).
Qed.
End walk.

Lemma ring_length (p : Plain.Map) h :
  plain_ok p → length (ring_from (Plain.keys p) h) = size (Plain.hashMap p).
Proof.
  intros [Hs Hdom].
  destruct (ring_from_split (Plain.keys p) h Hs) as (lo & hi & Hd & -> & _ & _).
  rewrite length_app, Nat.add_comm, <- length_app, <- Hd.
  rewrite <- size_dom. change (size (dom (Plain.hashMap p))) with (length (elements (dom (Plain.hashMap p)))).
  apply Permutation_length, NoDup_Permutation.
  - apply NoDup_remove_dups.
  - apply NoDup_elements.
  - intros x. rewrite elem_of_remove_dups, elem_of_elements, elem_of_dom. by rewrite Hdom.
Qed.

(** [GetN] never returns more than [n] members. *)
Lemma choose_length n accept cands :
  ∀ out, Z.of_nat (length out) ≤ n →
         Z.of_nat (length (choose n accept out cands)) ≤ n.
Proof.
  induction cands as [|c cands IH]; intros out Hout; simpl; [done|].
  case_bool_decide as Hlt; [|done].
  destruct (accept out c); apply IH; [|done]. rewrite length_app. simpl. lia.
Qed.

(** What is chosen is only ever extended. *)
Lemma choose_prefix n accept cands :
  ∀ out, ∃ more, choose n accept out cands = out ++ more.
Proof.
  induction cands as [|c cands IH]; intros out; simpl.
  - exists []. by rewrite app_nil_r.
  - case_bool_decide as Hlt; [|exists []; by rewrite app_nil_r].
    destruct (accept out c); [|apply IH].
    destruct (IH (out ++ [c])) as [more ->]. exists (c :: more).
    by rewrite <- app_assoc.
Qed.

(** C7: on a non-empty ring and for [n >= 1], [GetN key n accept] starts
    with the member that owns the key (the answer of [Get]), then visits
    the further distinct hashes of the ring in ring order, appends the
    member of a hash only when [accept] says so for the members chosen so
    far, and stops when [n] members are chosen or every hash of the ring
    has been visited. *)
Theorem GetN_walks_ring (p : Plain.Map) (key : string) (n : Z)
    (accept : option (list string → string → bool)) :
  Plain.reachable p → Plain.IsEmpty p = false → 1 ≤ n →
  Plain.GetN p key n accept = Done (GetN_spec p key n (default Plain.AcceptAny accept)) ∧
  ∃ primary more,
    Plain.Get p key = Done primary ∧
    GetN_spec p key n (default Plain.AcceptAny accept) = primary :: more ∧
    Z.of_nat (length (primary :: more)) ≤ n.
Proof.
  intros Hp Hne Hn. pose proof (Plain_reachable_ok p Hp) as Hok.
  destruct Hok as [Hs Hdom].
  assert (Plain.keys p ≠ []) as Hks.
  { intros E. unfold Plain.IsEmpty in Hne. rewrite E in Hne. done. }
  set (h := uint32 (Plain.hash p key)).
  destruct (successor_is_Some (Plain.keys p) h Hks) as [c0 Hc0].
  pose proof (ring_from_head (Plain.keys p) h Hs) as Hhead. rewrite Hc0 in Hhead.
  pose proof (ring_length p h (conj Hs Hdom)) as Hlen.
  split.
  - unfold Plain.GetN, GetN_spec. rewrite Hne, bool_decide_eq_false_2 by lia.
    cbv zeta. simpl. fold h.
    destruct (ring_from (Plain.keys p) h) as [|c rest] eqn:Hring; [done|].
    injection Hhead as ->.
    assert (Plain.getKeyFromHash p h = Done c0) as ->.
    { unfold Plain.getKeyFromHash. apply index_lookup. by rewrite search_idx_successor. }
    simpl. simpl in Hlen. rewrite <- Hlen.
    replace (S (length rest) - 1)%nat with (length rest) by lia.
    apply (GetN_loop_spec p n _ (conj Hs Hdom) h rest [] c0). by rewrite Hring.
  - unfold GetN_spec. fold h.
    destruct (ring_from (Plain.keys p) h) as [|c rest] eqn:Hring; [done|].
    injection Hhead as ->. rewrite fmap_cons. cbv beta iota.
    destruct (choose_prefix n (default Plain.AcceptAny accept)
                (member (Plain.hashMap p) <$> rest) [member (Plain.hashMap p) c0])
      as [more Hmore].
    exists (member (Plain.hashMap p) c0), more. split_and!.
    + by apply Plain_Get_successor.
    + by rewrite Hmore.
    + change (member (Plain.hashMap p) c0 :: more)
        with ([member (Plain.hashMap p) c0] ++ more).
      rewrite <- Hmore. apply choose_length. simpl. lia.
Qed.

(** The ring of [TestGetN]: three members from key "1237". *)
Lemma GetN_walks_ring_witness :
  Plain.GetN (Plain.Add (Plain.New 1 (Some atoiHash)) ["6"; "1337"; "1236"; "1723"]%string)
             "1237" 3 None
  = Done ["1337"; "1723"; "6"]%string.
Proof.
  destruct (GetN_walks_ring
              (Plain.Add (Plain.New 1 (Some atoiHash)) ["6"; "1337"; "1236"; "1723"]%string)
              "1237" 3 None) as [HGetN _].
  - apply Plain.reachable_Add, Plain.reachable_New.
  - vm_compute. reflexivity.
  - lia.
  - rewrite HGetN. vm_compute. reflexivity.
Defined.

(** ** Packed timestamps *)

Lemma Z_of_byte_of_Z z : Z_of_byte (byte_of_Z z) = z mod 256.
Proof.
  unfold Z_of_byte, byte_of_Z.
  pose proof (Z.mod_pos_bound z 256 ltac:(lia)) as Hr.
  destruct (Byte.of_N (Z.to_N (z mod 256))) as [b|] eqn:E; simpl.
  - apply Byte.to_of_N in E. rewrite E. lia.
  - apply Byte.of_N_None_iff in E. lia.
Qed.

Lemma le_bytes_length n u : length (le_bytes n u) = n.
Proof. revert u. induction n as [|n IH]; intros u; simpl; [done | by rewrite IH]. Qed.

(** Decoding [n] little-endian bytes of [u] gives the low [8 n] bits of [u]. *)
Lemma le_value_le_bytes n u : le_value (le_bytes n u) = u mod 2 ^ (8 * Z.of_nat n).
Proof.
  revert u. induction n as [|n IH]; intros u.
  - simpl. by rewrite Z.mod_1_r.
  - cbn [le_bytes le_value]. rewrite Z_of_byte_of_Z, IH.
    apply Z.bits_inj'. intros i Hi.
    rewrite Z.lor_spec.
    change 256 with (2 ^ 8).
    destruct (decide (i < 8)) as [Hlt|Hge].
    + rewrite Z.mod_pow2_bits_low by lia.
      rewrite Z.shiftl_spec_low by lia. rewrite orb_false_r.
      rewrite Z.mod_pow2_bits_low by lia. done.
    + rewrite (Z.mod_pow2_bits_high u 8) by lia. simpl.
      rewrite Z.shiftl_spec by lia.
      destruct (decide (i < 8 * Z.of_nat (S n))) as [Hin|Hout].
      * rewrite !Z.mod_pow2_bits_low by lia.
        rewrite Z.shiftr_spec by lia. f_equal. lia.
      * rewrite !Z.mod_pow2_bits_high by lia. done.
Qed.

Lemma int64_uint64 t : - 2 ^ 63 ≤ t < 2 ^ 63 → int64 (uint64 t) = t.
Proof.
  intros Ht. unfold int64, uint64. destruct (decide (0 ≤ t)) as [Hpos|Hneg].
  - rewrite Z.mod_small by lia. rewrite bool_decide_eq_true_2 by lia. done.
  - assert (t mod 2 ^ 64 = t + 2 ^ 64) as ->.
    { symmetry. apply (Z.mod_unique _ _ (-1)); lia. }
    rewrite bool_decide_eq_false_2 by lia. lia.
Qed.

(** C5: unpacking what [packTimestamp] packed gives back the bytes and the
    timestamp, with no error: packing appends the eight little-endian bytes
    of the timestamp and unpacking splits them off again. *)
Theorem UnpackTimestamp_packTimestamp (b : list Byte.byte) (t : Z) :
  - 2 ^ 63 ≤ t < 2 ^ 63 →
  ∃ packed, packTimestamp b t = (packed, None) ∧
            packed = b ++ le_bytes 8 (uint64 t) ∧
            UnpackTimestamp packed = Done (b, t, None).
Proof.
  intros Ht. exists (b ++ le_bytes 8 (uint64 t)). split_and!; [done | done |].
  unfold UnpackTimestamp, getTimestamp.
  rewrite length_app, le_bytes_length.
  rewrite bool_decide_eq_true_2 by lia. rewrite bool_decide_eq_false_2 by lia.
  replace (length b + 8 - 8)%nat with (length b) by lia.
  rewrite drop_app_length, take_app_length.
  unfold binary_Read_int64. rewrite le_bytes_length. simpl bool_decide.
  cbv iota beta.
  rewrite (take_ge (le_bytes 8 (uint64 t))) by (rewrite le_bytes_length; lia).
  rewrite le_value_le_bytes.
  change (8 * Z.of_nat 8) with 64.
  assert (uint64 t mod 2 ^ 64 = uint64 t) as ->.
  { unfold uint64. apply Z.mod_mod. lia. }
  rewrite int64_uint64 by done. done.
Qed.

(** The value and the timestamp of [TestExpires]. *)
Lemma UnpackTimestamp_packTimestamp_witness :
  ∃ packed, packTimestamp (String.list_byte_of_string "blahblah1") 100 = (packed, None) ∧
            packed = String.list_byte_of_string "blahblah1" ++ le_bytes 8 (uint64 100) ∧
            UnpackTimestamp packed = Done (String.list_byte_of_string "blahblah1", 100, None).
Proof. apply UnpackTimestamp_packTimestamp. lia. Defined.

(** ** Expiration *)

Lemma getTimestampByteView_short (bv : ByteView) :
  (Len bv < 8)%nat → getTimestampByteView bv = (0, Some EOF).
Proof.
  intros H. unfold getTimestampByteView.
  rewrite bool_decide_eq_false_2 by lia. done.
Qed.

Lemma SliceFrom_ByteSlice (bv : ByteView) n :
  ByteSlice (SliceFrom bv n) = drop n (ByteSlice bv).
Proof.
  destruct bv as [b|s]; simpl; [done|].
  by rewrite String.list_byte_of_string_of_list_byte.
Qed.

Lemma getTimestampByteView_long (bv : ByteView) :
  (8 ≤ Len bv)%nat →
  getTimestampByteView bv
    = (int64 (le_value (drop (Len bv - 8) (ByteSlice bv))), None).
Proof.
  intros H. unfold getTimestampByteView.
  rewrite bool_decide_eq_true_2 by lia. rewrite SliceFrom_ByteSlice.
  unfold binary_Read_int64, Len in *.
  rewrite !length_drop.
  rewrite bool_decide_eq_false_2 by lia. rewrite bool_decide_eq_false_2 by lia.
  rewrite take_ge by (rewrite length_drop; lia). done.
Qed.

Section expiration_proofs.
Context {World Sink : Type}.
Variable setSinkView : Sink → ByteView → Sink * option error.
Variable AllocatingByteSliceSink : Sink.
Variable view : Sink → ByteView.
Variable loadOnMiss : Group → World → string → Sink → bool → World * Sink * option error.
Variable NowUnixSeconds : World → Z * World.
Variable seconds : Z → Z.
Variable madeDeadline : World → bool.

Local Abbreviation handle :=
  (handleExpiration setSinkView AllocatingByteSliceSink view loadOnMiss
                    NowUnixSeconds seconds madeDeadline).

(** C8: when the cached value has no eight-byte timestamp suffix, the
    error of [getTimestampByteView] is what [handleExpiration] returns,
    and neither the destination nor anything else is touched. *)
Theorem handleExpiration_decode_error (g : Group) (w : World) (key : string)
    (dest : Sink) (value : ByteView) :
  (Len value < 8)%nat →
  ∃ e, getTimestampByteView value = (0, Some e) ∧
       handle g w key dest value = (w, dest, Some e).
Proof.
  intros H. exists EOF. split; [by apply getTimestampByteView_short|].
  unfold handleExpiration. by rewrite getTimestampByteView_short.
Qed.

(** C3, amended: for a cached value that carries a timestamp,
    [handleExpiration] reloads synchronously, and returns what the reload
    returns, when the offset past expiration has reached the stale
    period; it serves the cached value as it is when the offset is
    negative and below the stale period. *)
Theorem handleExpiration_fresh_or_reload (g : Group) (w : World) (key : string)
    (dest : Sink) (value : ByteView) :
  (8 ≤ Len value)%nat →
  ∃ timestamp,
    getTimestampByteView value = (timestamp, None) ∧
    let off := expiredOffset seconds g (NowUnixSeconds w).1 timestamp in
    let w1 := (NowUnixSeconds w).2 in
    (off < 0 → off < seconds (stalePeriod g) →
       handle g w key dest value
         = ((w1, (setSinkView dest value).1), (setSinkView dest value).2)) ∧
    (seconds (stalePeriod g) ≤ off →
       handle g w key dest value = loadOnMiss g w1 key dest true).
Proof.
  intros H. eexists. split; [by apply getTimestampByteView_long|].
  cbv zeta. unfold handleExpiration, GetTime.
  rewrite getTimestampByteView_long by done.
  destruct (NowUnixSeconds w) as [now w1]. simpl. split.
  - intros Hneg Hlt. rewrite bool_decide_eq_false_2 by lia.
    rewrite bool_decide_eq_false_2 by lia.
    by destruct (setSinkView dest value).
  - intros Hge. by rewrite bool_decide_eq_true_2.
Qed.

(** Without overflow the offset is [now - timestamp - expiration]. *)
Lemma expiredOffset_exact (g : Group) (now timestamp : Z) :
  - 2 ^ 63 ≤ now - timestamp < 2 ^ 63 →
  - 2 ^ 63 ≤ now - timestamp - seconds (expiration g) < 2 ^ 63 →
  expiredOffset seconds g now timestamp = now - timestamp - seconds (expiration g).
Proof.
  intros H1 H2. unfold expiredOffset, wrap64. cbv zeta.
  rewrite (int64_uint64 (now - timestamp)) by done. by rewrite int64_uint64.
Qed.
End expiration_proofs.

Lemma handleExpiration_decode_error_witness :
  ∃ e, getTimestampByteView (ByteView_s "short") = (0, Some e) ∧
       exampleHandle "foofoo1" true (mkGroup 300000000000 0 0) [399] "testKey1" None
                     (ByteView_s "short")
       = ([399], None, Some e).
Proof.
  apply (handleExpiration_decode_error exampleSetSinkView None exampleView
           (exampleLoad "foofoo1") exampleNow exampleSeconds (λ _, true)).
  vm_compute. lia.
Defined.

(** [TestExpires] at time 399: the value stamped 100 with expiration 300 s
    is served as it is. *)
Lemma handleExpiration_fresh_or_reload_witness :
  ∃ timestamp,
    getTimestampByteView exampleValue = (timestamp, None) ∧
    let off := expiredOffset exampleSeconds (mkGroup 300000000000 0 0)
                             (exampleNow [399]).1 timestamp in
    let w1 := (exampleNow [399]).2 in
    (off < 0 → off < exampleSeconds (stalePeriod (mkGroup 300000000000 0 0)) →
       exampleHandle "foofoo1" true (mkGroup 300000000000 0 0) [399] "testKey1" None
                     exampleValue
       = ((w1, (exampleSetSinkView None exampleValue).1),
          (exampleSetSinkView None exampleValue).2)) ∧
    (exampleSeconds (stalePeriod (mkGroup 300000000000 0 0)) ≤ off →
       exampleHandle "foofoo1" true (mkGroup 300000000000 0 0) [399] "testKey1" None
                     exampleValue
       = exampleLoad "foofoo1" (mkGroup 300000000000 0 0) w1 "testKey1" None true).
Proof.
  apply (handleExpiration_fresh_or_reload exampleSetSinkView None exampleView
           (exampleLoad "foofoo1") exampleNow exampleSeconds (λ _, true)).
  vm_compute. lia.
Defined.

(** C3 as stated fails for a negative stale period: with expiration 300 s
    and stale period -100 s, a value stamped 100 and read at time 350 has
    offset -50, which is negative, and yet it is reloaded: what is served
    is "foofoo1" stamped 351, not the cached "blahblah1" stamped 100. *)
Lemma handleExpiration_negative_stale_counterexample :
  expiredOffset exampleSeconds (mkGroup 300000000000 (-100000000000) 0) 350 100 = -50 ∧
  exampleHandle "foofoo1" true (mkGroup 300000000000 (-100000000000) 0)
                [350; 351] "testKey1" None exampleValue
  = ([], Some (ByteView_b (packTimestamp (String.list_byte_of_string "foofoo1") 351).1), None) ∧
  UnpackTimestamp (packTimestamp (String.list_byte_of_string "foofoo1") 351).1
  = Done (String.list_byte_of_string "foofoo1", 351, None).
Proof. vm_compute. repeat split. Qed.

(** ** The gRPC pool *)

Lemma Add_nonempty m names m' : Add m names = Done m' → keys m' ≠ [].
Proof.
  intros HAdd Hnil. pose proof (Add_result _ _ _ HAdd) as (_ & _ & Hk & _).
  rewrite Hk in Hnil. by rewrite (Add_Panics _ _ Hnil) in HAdd.
Qed.

Lemma getters_of_peers (ps : list string) (gs : gmap string getter) peer :
  is_Some (foldl (λ gs peer, <[peer := mkGetter peer]> gs) gs ps !! peer)
  ↔ peer ∈ ps ∨ is_Some (gs !! peer).
Proof.
  revert gs. induction ps as [|q ps IH]; intros gs; simpl.
  - split; [by right|]. intros [H|H]; [by apply elem_of_nil in H | done].
  - rewrite IH, lookup_insert_is_Some, elem_of_cons.
    destruct (decide (q = peer)) as [Heq|Hne]; intuition congruence.
Qed.

(** C10, amended: [Set] adds the new peers to the ring that is already
    there and replaces the getters by those of the new peers alone; so
    after two calls of [Set], a key that the ring gives to a peer that is
    not in the second list, and that is not the pool's own address, makes
    [PickPeer] answer [(nil, true)]; a key that the ring gives to the
    pool's own address makes it answer [(nil, false)]. *)
Theorem PickPeer_removed_peer (g g1 g2 : Pool) (p1 p2 : list string) :
  Set_ g p1 = Done g1 → Set_ g1 p2 = Done g2 →
  (∀ h, h ∈ keys (peers g1) → h ∈ keys (peers g2)) ∧
  (∀ peer, is_Some (getters g2 !! peer) ↔ peer ∈ p2) ∧
  (∀ key peer, Get (peers g2) key = Done peer → peer ∉ p2 → peer ≠ self g2 →
               PickPeer g2 key = Done (None, true)) ∧
  (∀ key, Get (peers g2) key = Done (self g2) → PickPeer g2 key = Done (None, false)).
Proof.
  intros H1 H2. unfold Set_ in H1, H2.
  apply obind_Done in H1 as (ring1 & HAdd1 & [= <-]).
  apply obind_Done in H2 as (ring2 & HAdd2 & [= <-]). simpl in *.
  split_and!.
  - intros h Hh. apply Add_result in HAdd2 as (_ & _ & Hk & _).
    rewrite Hk. unfold keys_after. rewrite sort_Ints_elem_of, elem_of_app. by left.
  - intros peer. rewrite getters_of_peers, lookup_empty.
    split; [intros [?|[? ?]]; done | by left].
  - intros key peer HGet Hnot Hself. unfold PickPeer, IsEmpty. simpl.
    rewrite bool_decide_eq_false_2.
    2:{ intros H. apply length_zero_iff_nil in H. by apply Add_nonempty in HAdd2. }
    rewrite HGet. simpl. rewrite bool_decide_eq_true_2 by done.
    destruct (foldl _ ∅ p2 !! peer) as [gt|] eqn:E; [|done].
    exfalso. apply Hnot.
    assert (is_Some (foldl (λ gs peer, <[peer := mkGetter peer]> gs) ∅ p2 !! peer))
      as Hsome by (by rewrite E).
    apply getters_of_peers in Hsome as [?|[? Hempty]]; [done|].
    by rewrite lookup_empty in Hempty.
  - intros key HGet. unfold PickPeer, IsEmpty. simpl.
    rewrite bool_decide_eq_false_2.
    2:{ intros H. apply length_zero_iff_nil in H. by apply Add_nonempty in HAdd2. }
    rewrite HGet. simpl. rewrite bool_decide_eq_false_2; [done|]. by intros H.
Qed.

(** The pool "9" with peers "1" and "5", then with "5" alone: the key "1"
    still belongs to "1" on the ring. *)
Lemma PickPeer_removed_peer_witness :
  Get (peers (poolAfterSecondSet "9")) "1" = Done "1"%string ∧
  PickPeer (poolAfterSecondSet "9") "1" = Done (None, true).
Proof.
  assert (HGet : Get (peers (poolAfterSecondSet "9")) "1" = Done "1"%string).
  { vm_compute. reflexivity. }
  assert (H1 : Set_ (examplePool "9") ["1"; "5"]%string = Done (poolAfterFirstSet "9")).
  { returned_with (examplePool "9"). }
  assert (H2 : Set_ (poolAfterFirstSet "9") ["5"]%string = Done (poolAfterSecondSet "9")).
  { returned_with (poolAfterFirstSet "9"). }
  assert (Hself : "1"%string ≠ self (poolAfterSecondSet "9")).
  { vm_compute. discriminate. }
  assert (Hgone : "1"%string ∉ ["5"]%string).
  { rewrite elem_of_cons. intros [?|H]; [done | by apply elem_of_nil in H]. }
  split; [exact HGet|].
  exact (proj1 (proj2 (proj2 (PickPeer_removed_peer _ _ _ _ _ H1 H2)))
               "1"%string "1"%string HGet Hgone Hself).
Defined.

(** C10 as stated fails when the peer that was removed is the pool's own
    address: the pool "1" with peers "1" and "5", then with "5" alone,
    answers [(nil, false)] for the key "1", which the ring still gives to
    "1". *)
Lemma PickPeer_removed_self_counterexample :
  NewPoolOpts freshProcess "1" [WithReplicas 1; withAtoiHash]
    = Done (mkProcess true true, examplePool "1") ∧
  Set_ (examplePool "1") ["1"; "5"]%string = Done (poolAfterFirstSet "1") ∧
  Set_ (poolAfterFirstSet "1") ["5"]%string = Done (poolAfterSecondSet "1") ∧
  ("1"%string ∈ ["1"; "5"]%string) ∧ ("1"%string ∉ ["5"]%string) ∧
  Get (peers (poolAfterSecondSet "1")) "1" = Done "1"%string ∧
  getters (poolAfterSecondSet "1") !! "1"%string = None ∧
  PickPeer (poolAfterSecondSet "1") "1" = Done (None, false).
Proof.
  split; [reflexivity|].
  split; [returned_with (examplePool "1")|].
  split; [returned_with (poolAfterFirstSet "1")|].
  split; [left|]. split.
  - rewrite elem_of_cons. intros [?|H]; [done | by apply elem_of_nil in H].
  - vm_compute. repeat split.
Qed.
Example test_Hashing_Add :
  keys <$> (match Add (NewConsistentHash 3 6 (Some atoiHash)) ["6"; "4"; "2"]%string with Done m => Some m | _ => None end)
  = Some [2; 4; 6; 12; 14; 16; 22; 24; 26].
Proof. vm_compute. reflexivity. Qed.

Example test_Hashing_Get :
  (m ←! Add (NewConsistentHash 3 6 (Some atoiHash)) ["6"; "4"; "2"]%string;
   a ←! Get m "2"; b ←! Get m "11"; c ←! Get m "23"; d ←! Get m "27";
   m' ←! Add m ["8"]%string; e ←! Get m' "27";
   Done [a; b; c; d; e])
  = Done ["2"; "2"; "4"; "2"; "8"]%string.
Proof. vm_compute. reflexivity. Qed.

Example test_ChecksumIEEE : ChecksumIEEE "123456789" = 0xCBF43926.
Proof. vm_compute. reflexivity. Qed.

Example test_GetN :
  let m := Plain.Add (Plain.New 1 (Some atoiHash)) ["6"; "1337"; "1236"; "1723"]%string in
  Plain.GetN m "1235" 3 None = Done ["1236"; "1337"; "1723"]%string ∧
  Plain.GetN m "1237" 3 None = Done ["1337"; "1723"; "6"]%string ∧
  Plain.GetN m "1338" 3 None = Done ["1723"; "6"; "1236"]%string ∧
  Plain.GetN m "1" 0 None = Done [] ∧
  Plain.GetN (Plain.New 1 (Some atoiHash)) "1" 1 None = Done [] ∧
  (length <$> (match Plain.GetN m "9999" 10 None with Done l => Some l | _ => None end))
    = Some 4%nat.
Proof. vm_compute. repeat split. Qed.

(** [TestExpires]: served from the cache at 399, reloaded at 400 with the
    stamp 401. *)
Example test_Expires :
  exampleHandle "foofoo1" true (mkGroup 300000000000 0 0) [399] "testKey1" None exampleValue
    = ([], Some exampleValue, None) ∧
  exampleHandle "foofoo1" true (mkGroup 300000000000 0 0) [400; 401] "testKey1" None exampleValue
    = ([], Some (ByteView_b (packTimestamp (String.list_byte_of_string "foofoo1") 401).1), None).
Proof. vm_compute. repeat split. Qed.

Example test_negative_timestamp :
  UnpackTimestamp (packTimestamp [] (-1)).1 = Done ([], -1, None).
Proof. vm_compute. reflexivity. Qed.

(** * Further properties of the ring *)

(** ** What [Add] leaves in the ring *)

Lemma vnodes_length fn r names :
  length (vnodes fn r names) = (length names * Z.to_nat r)%nat.
Proof.
  unfold vnodes. induction names as [|key names IH]; [done|].
  rewrite bind_cons, length_app, IH, length_fmap, length_seq. simpl. lia.
Qed.

(** [Add] inserts exactly [replicas] hashes for every name, keeps the
    hashes that were there, and leaves [keys] sorted. *)
Theorem Add_appends_replicas (m : Map) (names : list string) (m' : Map) :
  Add m names = Done m' →
  keys m' ≡ₚ keys m ++ (vnodes (hash m) (replicas m) names).*1 ∧
  StronglySorted Z.le (keys m') ∧
  length (keys m') = (length (keys m) + length names * Z.to_nat (replicas m))%nat.
Proof.
  intros HAdd. apply Add_result in HAdd as (_ & _ & Hk & _).
  rewrite Hk. unfold keys_after. split_and!.
  - apply sort_Ints_perm.
  - apply sort_Ints_sorted.
  - rewrite sort_Ints_perm, length_app, length_fmap, vnodes_length. done.
Qed.

Lemma Add_appends_replicas_witness :
  keys testRingThen8 ≡ₚ keys testRing ++ (vnodes (hash testRing) (replicas testRing) ["8"]%string).*1 ∧
  StronglySorted Z.le (keys testRingThen8) ∧
  length (keys testRingThen8)
    = (length (keys testRing) + length ["8"]%string * Z.to_nat (replicas testRing))%nat.
Proof.
  apply (Add_appends_replicas testRing ["8"]%string testRingThen8).
  returned_with testRing.
Defined.

(** The members recorded for the hashes of a reachable ring. *)
Lemma reachable_hashMap_dom m :
  reachable m → ∀ h, h ∈ keys m ↔ is_Some (hashMap m !! h).
Proof.
  induction 1 as [r e fn | m names m' _ IH HAdd]; intros h.
  - simpl. rewrite lookup_empty. split.
    + intros H. by apply elem_of_nil in H.
    + by intros [? ?].
  - apply Add_result in HAdd as (_ & _ & Hk & Hhm).
    rewrite Hk, Hhm. unfold keys_after, hashMap_after.
    rewrite sort_Ints_elem_of, elem_of_app, insert_pairs_is_Some. simpl.
    rewrite IH. tauto.
Qed.

(** The invariant of the ring: after any calls of [Add], [keys] is sorted,
    every hash is a [uint32], and [hashMap] records a member for exactly
    the hashes of [keys]. *)
Theorem ring_invariant (m : Map) :
  reachable m →
  StronglySorted Z.le (keys m) ∧
  Forall (λ h, 0 ≤ h < 2 ^ 32) (keys m) ∧
  ∀ h, h ∈ keys m ↔ is_Some (hashMap m !! h).
Proof.
  intros Hm. destruct (reachable_ring_ok m Hm) as (Hs & Hr & _).
  split_and!; [done | done |]. by apply reachable_hashMap_dom.
Qed.

Lemma testRing_reachable : reachable testRing.
Proof.
  apply (AddAll_reachable (NewConsistentHash 3 6 (Some atoiHash)) [["6"; "4"; "2"]]%string);
    [apply reachable_New|].
  returned_with (NewConsistentHash 3 6 (Some atoiHash)).
Qed.

Lemma ring_invariant_witness :
  StronglySorted Z.le (keys testRing) ∧
  Forall (λ h, 0 ≤ h < 2 ^ 32) (keys testRing) ∧
  ∀ h, h ∈ keys testRing ↔ is_Some (hashMap testRing !! h).
Proof. apply ring_invariant. apply testRing_reachable. Defined.

(** ** [Get] returns, and returns a member *)

(** [Get] never panics on a reachable ring: the slot of the key lies in the
    prefix table and the index found by the search lies in [keys].  On an
    empty ring the answer is the empty string. *)
Theorem Get_returns (m : Map) (key : string) :
  reachable m →
  ∃ s, Get m key = Done s ∧ (IsEmpty m = true → s = EmptyString).
Proof.
  intros Hm. destruct (decide (keys m = [])) as [Hnil|Hne].
  - exists EmptyString. unfold Get, IsEmpty. by rewrite Hnil.
  - destruct (Get_successor m key (reachable_ring_ok m Hm) Hne) as (h' & _ & HGet).
    eexists. split; [exact HGet|]. unfold IsEmpty. intros H.
    apply bool_decide_eq_true in H. by apply length_zero_iff_nil in H.
Qed.

Lemma Get_returns_witness :
  ∃ s, Get testRing "27" = Done s ∧ (IsEmpty testRing = true → s = EmptyString).
Proof. apply Get_returns. apply testRing_reachable. Defined.

(** On a ring filled by [AddAll], the answer of [Get] is one of the names
    that were added. *)
Lemma AddAll_Get_member r e fn batches m key :
  AddAll (NewConsistentHash r e fn) batches = Done m → keys m ≠ [] →
  ∃ name, Get m key = Done name ∧ name ∈ concat batches.
Proof.
  intros HAll Hne.
  assert (Hm : reachable m) by (eapply AddAll_reachable; [apply reachable_New | done]).
  pose proof (reachable_ring_ok m Hm) as Hok.
  destruct (AddAll_contents _ _ _ HAll) as (_ & _ & Hk & Hmem & Hsome).
  destruct (Get_successor m key Hok Hne) as (h' & Hsucc & HGet).
  apply successor_serves in Hsucc; [|apply Hok]. destruct Hsucc as [Hin _].
  apply Hk in Hin as [Hin|Hin]; [by apply elem_of_nil in Hin|].
  destruct (Hsome h' Hin) as [name Hname].
  exists name. split.
  - rewrite HGet. unfold member. by rewrite Hname.
  - apply Hmem in Hname as [Hname|Hname]; [simpl in Hname; by rewrite lookup_empty in Hname|].
    by apply elem_of_vnodes in Hname as [? _].
Qed.

(** Every answer of a non-empty ring is a member that was added to it: [Get]
    never answers with the zero value of a missing [hashMap] entry. *)
Theorem Get_answers_member (r e : Z) (fn : option Hash) (batches : list (list string))
    (m : Map) (key : string) :
  AddAll (NewConsistentHash r e fn) batches = Done m → IsEmpty m = false →
  ∃ name, Get m key = Done name ∧ name ∈ concat batches.
Proof.
  intros HAll Hne. apply (AddAll_Get_member r e fn); [done|].
  intros E. unfold IsEmpty in Hne. by rewrite E in Hne.
Qed.

Lemma Get_answers_member_witness :
  ∃ name, Get testRing8 "27" = Done name ∧
          name ∈ concat [["6"; "4"; "2"]; ["8"]]%string.
Proof.
  apply (Get_answers_member 3 6 (Some atoiHash)).
  - returned_with (NewConsistentHash 3 6 (Some atoiHash)).
  - vm_compute. reflexivity.
Defined.

(** ** The size of the prefix table *)

Lemma Len32_spec x : 0 < x → 2 ^ (Len32 x - 1) ≤ x < 2 ^ Len32 x.
Proof.
  intros Hx. unfold Len32. destruct (Z.eqb_spec x 0) as [->|_]; [lia|].
  replace (Z.log2 x + 1 - 1) with (Z.log2 x) by lia.
  pose proof (Z.log2_spec x Hx). by rewrite <- Z.add_1_r in *.
Qed.

Lemma Add_shift m0 names m :
  Add m0 names = Done m →
  prefixShift m = 32 - Len32 (uint32 (Z.of_nat (length (keys m)) * prefixTableExpansion m)).
Proof.
  rewrite Add_unfold. cbv zeta. intros H.
  apply obind_Done in H as (t & _ & [= <-]). done.
Qed.

Lemma reachable_shift m :
  reachable m → keys m ≠ [] →
  prefixShift m = 32 - Len32 (uint32 (Z.of_nat (length (keys m)) * prefixTableExpansion m)).
Proof.
  intros Hm. destruct Hm as [r e fn | m0 names m _ HAdd].
  - by intros H.
  - intros _. by apply Add_shift in HAdd.
Qed.

(** The prefix table has [2 ^ bits] slots, with [bits] the least number of
    bits that holds [len(keys) * prefixTableExpansion]: more slots than
    that product and at most twice as many. *)
Theorem prefixTable_size (m : Map) :
  reachable m → IsEmpty m = false →
  let n := Z.of_nat (length (keys m)) * prefixTableExpansion m in
  Z.of_nat (length (prefixTable m)) = 2 ^ Len32 (uint32 n) ∧
  (0 < n < 2 ^ 32 → n < Z.of_nat (length (prefixTable m)) ≤ 2 * n).
Proof.
  intros Hm Hne n.
  assert (keys m ≠ []) as Hks.
  { intros E. unfold IsEmpty in Hne. by rewrite E in Hne. }
  destruct (reachable_ring_ok m Hm) as (_ & _ & _ & _ & Htab).
  destruct (Htab Hks) as (Hshift & Hlen & _).
  assert (Hsh : prefixShift m = 32 - Len32 (uint32 n)).
  { by apply reachable_shift. }
  assert (Hbits : 0 ≤ Len32 (uint32 n) ≤ 32) by apply Len32_range, uint32_range.
  assert (Hsize : Z.of_nat (length (prefixTable m)) = 2 ^ Len32 (uint32 n)).
  { rewrite Hlen, Hsh. replace (32 - (32 - Len32 (uint32 n))) with (Len32 (uint32 n)) by lia.
    rewrite Z2Nat.id; [done|]. apply Z.pow_nonneg. lia. }
  split; [done|]. intros Hn. rewrite Hsize.
  assert (uint32 n = n) as -> by (unfold uint32; apply Z.mod_small; lia).
  destruct (Len32_spec n) as [Hlo Hhi]; [lia|].
  split; [done|].
  assert (0 < Len32 n).
  { unfold Len32. destruct (Z.eqb_spec n 0); [lia|]. pose proof (Z.log2_nonneg n). lia. }
  replace (Len32 n) with (Z.succ (Len32 n - 1)) by lia.
  rewrite Z.pow_succ_r by lia. lia.
Qed.

(** [TestHashing]: 9 hashes and expansion 6 give 54, hence 64 slots. *)
Lemma prefixTable_size_witness :
  let n := Z.of_nat (length (keys testRing)) * prefixTableExpansion testRing in
  Z.of_nat (length (prefixTable testRing)) = 2 ^ Len32 (uint32 n) ∧
  (0 < n < 2 ^ 32 → n < Z.of_nat (length (prefixTable testRing)) ≤ 2 * n).
Proof.
  apply prefixTable_size; [apply testRing_reachable | vm_compute; reflexivity].
Defined.

(** ** Adding members moves keys only to the new members *)

Lemma insert_pairs_lookup_notin (ps : list (Z * string)) (st : list Z * gmap Z string) h :
  h ∉ ps.*1 →
  (foldl (λ st (p : Z * string), (st.1 ++ [p.1], <[p.1 := p.2]> st.2)) st ps).2 !! h
    = st.2 !! h.
Proof.
  revert st. induction ps as [|[ph pn] ps IH]; intros st Hnot; simpl; [done|].
  simpl in Hnot. apply not_elem_of_cons in Hnot as [Hne Hnot].
  rewrite IH by done. simpl. by rewrite lookup_insert_ne.
Qed.

Lemma serves_subset (ks ks' : list Z) h a :
  (∀ x, x ∈ ks → x ∈ ks') → a ∈ ks → serves ks' h a → serves ks h a.
Proof.
  intros Hsub Ha (_ & [[Hha Hmin]|[Hall Hmin]]); split; try done.
  - left. split; [done|]. intros x Hx. apply Hmin. by apply Hsub.
  - right. split; intros x Hx; [apply Hall | apply Hmin]; by apply Hsub.
Qed.

(** Consistency of the ring: after [Add(names...)] a key is answered as
    before, or by one of the new names; no key moves from one old member to
    another. *)
Theorem Add_moves_keys_to_new_members (m : Map) (names : list string) (m' : Map)
    (key s s' : string) :
  reachable m → Add m names = Done m' →
  Get m key = Done s → Get m' key = Done s' →
  s' = s ∨ s' ∈ names.
Proof.
  intros Hm HAdd HGet HGet'.
  assert (Hm' : reachable m') by (by eapply reachable_Add).
  pose proof (reachable_ring_ok m Hm) as Hok.
  pose proof (reachable_ring_ok m' Hm') as Hok'.
  pose proof (Add_nonempty _ _ _ HAdd) as Hne'.
  pose proof (Add_result _ _ _ HAdd) as (Hh & _ & Hk & Hhm).
  destruct (Get_successor m' key Hok' Hne') as (h1' & Hsucc' & HG').
  rewrite HG' in HGet'. injection HGet' as <-.
  apply successor_serves in Hsucc'; [|apply Hok'].
  rewrite Hh in Hsucc'. set (h := uint32 (hash m key)) in *.
  set (ps := vnodes (hash m) (replicas m) names) in *.
  destruct (decide (h1' ∈ ps.*1)) as [Hnew|Hold].
  - (* the key is now served by a hash of a new name *)
    right.
    assert (is_Some (hashMap m' !! h1')) as [name Hname].
    { rewrite Hhm. unfold hashMap_after. apply insert_pairs_is_Some. by left. }
    unfold member. rewrite Hname. simpl.
    rewrite Hhm in Hname. unfold hashMap_after in Hname.
    apply insert_pairs_lookup in Hname as [Hin|[_ Hnot]]; [|done].
    by apply elem_of_vnodes in Hin as [? _].
  - (* the key is served by a hash that was there before *)
    left.
    assert (Hin : h1' ∈ keys m).
    { destruct Hsucc' as [Hin _]. rewrite Hk in Hin. unfold keys_after in Hin.
      rewrite sort_Ints_elem_of, elem_of_app in Hin. by destruct Hin. }
    assert (Hne : keys m ≠ []).
    { intros E. rewrite E in Hin. by apply elem_of_nil in Hin. }
    destruct (Get_successor m key Hok Hne) as (h1 & Hsucc & HG).
    rewrite HG in HGet. injection HGet as <-.
    apply successor_serves in Hsucc; [|apply Hok].
    assert (h1' = h1) as ->.
    { apply (serves_unique (keys m) (keys m) h); [done | | done].
      apply (serves_subset (keys m) (keys m')); [|done|done].
      intros x Hx. rewrite Hk. unfold keys_after.
      rewrite sort_Ints_elem_of, elem_of_app. by left. }
    unfold member. rewrite Hhm. unfold hashMap_after.
    by rewrite insert_pairs_lookup_notin.
Qed.

(** [TestHashing]: "27" moves from "2" to the new member "8". *)
Lemma Add_moves_keys_to_new_members_witness :
  "8"%string = "2"%string ∨ "8"%string ∈ ["8"]%string.
Proof.
  apply (Add_moves_keys_to_new_members testRing ["8"]%string testRingThen8 "27").
  - apply testRing_reachable.
  - returned_with testRing.
  - vm_compute. reflexivity.
  - vm_compute. reflexivity.
Defined.

(** * Further properties of [GetN] *)

(** [GetN] returns on every reachable ring: nothing on an empty ring or for
    [n < 1], the walk of [GetN_spec] otherwise. *)
Lemma GetN_Done (p : Plain.Map) (key : string) (n : Z)
    (accept : option (list string → string → bool)) :
  Plain.reachable p →
  Plain.GetN p key n accept
    = Done (if Plain.IsEmpty p || bool_decide (n < 1) then []
            else GetN_spec p key n (default Plain.AcceptAny accept)).
Proof.
  intros Hp. unfold Plain.GetN.
  destruct (Plain.IsEmpty p || bool_decide (n < 1)) eqn:Hguard; [done|].
  apply orb_false_iff in Hguard as [Hne Hn].
  destruct (Plain_reachable_ok p Hp) as [Hs Hdom].
  assert (Plain.keys p ≠ []) as Hks.
  { intros E. unfold Plain.IsEmpty in Hne. rewrite E in Hne. done. }
  unfold GetN_spec. cbv zeta. simpl. set (h := uint32 (Plain.hash p key)).
  destruct (successor_is_Some (Plain.keys p) h Hks) as [c0 Hc0].
  pose proof (ring_from_head (Plain.keys p) h Hs) as Hhead. rewrite Hc0 in Hhead.
  pose proof (ring_length p h (conj Hs Hdom)) as Hlen.
  destruct (ring_from (Plain.keys p) h) as [|c rest] eqn:Hring; [done|].
  injection Hhead as ->.
  assert (Plain.getKeyFromHash p h = Done c0) as ->.
  { unfold Plain.getKeyFromHash. apply index_lookup. by rewrite search_idx_successor. }
  simpl. simpl in Hlen. rewrite <- Hlen.
  replace (S (length rest) - 1)%nat with (length rest) by lia.
  apply (GetN_loop_spec p n _ (conj Hs Hdom) h rest [] c0). by rewrite Hring.
Qed.

Lemma AcceptUnique_spec (stack : list string) (found : string) :
  Plain.AcceptUnique stack found = true ↔ found ∉ stack.
Proof.
  induction stack as [|v stack IH]; simpl.
  - split; [intros _; apply not_elem_of_nil | done].
  - rewrite not_elem_of_cons. case_bool_decide as Hv.
    + split; [done|]. intros [Hne _]. by subst.
    + rewrite IH. split; [|by intros [_ ?]]. intros H. split; [|done]. by intros ->.
Qed.

Lemma choose_NoDup n cands :
  ∀ out, NoDup out → NoDup (choose n Plain.AcceptUnique out cands).
Proof.
  induction cands as [|c cands IH]; intros out Hout; simpl; [done|].
  case_bool_decide as Hlt; [|done].
  destruct (Plain.AcceptUnique out c) eqn:Hacc; [|by apply IH].
  apply IH. apply NoDup_app. split_and!; [done| |apply NoDup_singleton].
  intros x Hx Hc. apply list_elem_of_singleton in Hc as ->.
  by apply AcceptUnique_spec in Hacc.
Qed.

(** With [AcceptUnique], [GetN] returns no member twice. *)
Theorem GetN_AcceptUnique_NoDup (p : Plain.Map) (key : string) (n : Z) :
  Plain.reachable p →
  ∃ out, Plain.GetN p key n (Some Plain.AcceptUnique) = Done out ∧ NoDup out.
Proof.
  intros Hp. eexists. split; [by apply GetN_Done|].
  destruct (Plain.IsEmpty p || bool_decide (n < 1)); [apply NoDup_nil_2|].
  unfold GetN_spec.
  destruct (member (Plain.hashMap p) <$> ring_from _ _) as [|primary successors];
    [apply NoDup_nil_2|].
  apply choose_NoDup, NoDup_singleton.
Qed.

(** The ring of [TestGetNWithReplicas]. *)
Lemma GetN_AcceptUnique_NoDup_witness :
  ∃ out, Plain.GetN (Plain.Add (Plain.New 250 None) ["6"; "1337"; "1236"; "1723"]%string)
                    "1338" 3 (Some Plain.AcceptUnique) = Done out ∧ NoDup out.
Proof.
  apply GetN_AcceptUnique_NoDup. apply Plain.reachable_Add, Plain.reachable_New.
Defined.

Lemma choose_length_le n accept cands :
  ∀ out, (length (choose n accept out cands) ≤ length out + length cands)%nat.
Proof.
  induction cands as [|c cands IH]; intros out; simpl; [lia|].
  case_bool_decide as Hlt; [|lia].
  destruct (accept out c).
  - specialize (IH (out ++ [c])). rewrite length_app in IH. simpl in IH. lia.
  - specialize (IH out). lia.
Qed.

Lemma choose_all_length n accept cands :
  (∀ out c, accept out c = true) →
  ∀ out, Z.of_nat (length out) ≤ n →
    Z.of_nat (length (choose n accept out cands))
      = Z.min n (Z.of_nat (length out + length cands)).
Proof.
  intros Hacc. induction cands as [|c cands IH]; intros out Hout; simpl.
  - rewrite Nat.add_0_r. lia.
  - case_bool_decide as Hlt; [|lia].
    rewrite Hacc, IH by (rewrite length_app; simpl; lia).
    rewrite length_app. simpl. f_equal. lia.
Qed.

Lemma plain_empty_size (p : Plain.Map) :
  plain_ok p → Plain.keys p = [] → size (Plain.hashMap p) = 0%nat.
Proof.
  intros [_ Hdom] Hnil. apply map_size_empty_iff, map_empty. intros h.
  destruct (Plain.hashMap p !! h) as [x|] eqn:E; [|done].
  assert (h ∈ Plain.keys p) as Hin by (apply Hdom; eauto).
  rewrite Hnil in Hin. by apply elem_of_nil in Hin.
Qed.

(** [GetN] never returns more members than the ring has distinct hashes,
    whatever [accept] does; when [accept] is nil (or accepts everything) and
    [n >= 1], it returns exactly the smaller of [n] and the number of
    distinct hashes. *)
Theorem GetN_length (p : Plain.Map) (key : string) (n : Z)
    (accept : option (list string → string → bool)) :
  Plain.reachable p →
  ∃ out, Plain.GetN p key n accept = Done out ∧
         (length out ≤ size (Plain.hashMap p))%nat ∧
         ((∀ chosen c, default Plain.AcceptAny accept chosen c = true) → 1 ≤ n →
            Z.of_nat (length out) = Z.min n (Z.of_nat (size (Plain.hashMap p)))).
Proof.
  intros Hp. eexists. split; [by apply GetN_Done|].
  pose proof (Plain_reachable_ok p Hp) as Hok.
  destruct (decide (Plain.keys p = [])) as [Hnil|Hne].
  - assert (Plain.IsEmpty p = true) as -> by (unfold Plain.IsEmpty; by rewrite Hnil).
    simpl. rewrite (plain_empty_size p Hok Hnil). split; [done|]. intros _ Hn. lia.
  - assert (Plain.IsEmpty p = false) as ->.
    { unfold Plain.IsEmpty. apply bool_decide_eq_false_2. intros H.
      by apply length_zero_iff_nil in H. }
    pose proof (ring_length p (uint32 (Plain.hash p key)) Hok) as Hlen.
    simpl. unfold GetN_spec.
    destruct (ring_from (Plain.keys p) (uint32 (Plain.hash p key))) as [|c rest] eqn:Hring.
    + simpl in *. case_bool_decide; simpl; (split; [lia|]); intros _ ?; lia.
    + rewrite fmap_cons. simpl in Hlen. case_bool_decide as Hn; simpl.
      * split; [lia|]. intros _ ?. lia.
      * split.
        -- pose proof (choose_length_le n (default Plain.AcceptAny accept)
                         (member (Plain.hashMap p) <$> rest)
                         [member (Plain.hashMap p) c]) as Hle.
           rewrite length_fmap in Hle. simpl in Hle. lia.
        -- intros Hacc _. rewrite choose_all_length by (done || simpl; lia).
           rewrite length_fmap. simpl. f_equal. lia.
Qed.

(** [TestGetN]: a ring of 4 hashes asked for 10 members gives 4. *)
Lemma GetN_length_witness :
  ∃ out, Plain.GetN (Plain.Add (Plain.New 1 (Some atoiHash))
                               ["6"; "1337"; "1236"; "1723"]%string) "9999" 10 None
           = Done out ∧
         (length out ≤ size (Plain.hashMap (Plain.Add (Plain.New 1 (Some atoiHash))
                                              ["6"; "1337"; "1236"; "1723"]%string)))%nat ∧
         ((∀ chosen c, default Plain.AcceptAny None chosen c = true) → 1 ≤ 10 →
            Z.of_nat (length out)
              = Z.min 10 (Z.of_nat (size (Plain.hashMap
                   (Plain.Add (Plain.New 1 (Some atoiHash))
                              ["6"; "1337"; "1236"; "1723"]%string))))).
Proof. apply GetN_length. apply Plain.reachable_Add, Plain.reachable_New. Defined.

(** Asked for one member, [GetN] gives the answer of [Get], whatever
    [accept] is: the primary member is never put to [accept]. *)
Theorem GetN_one_is_Get (p : Plain.Map) (key : string)
    (accept : option (list string → string → bool)) :
  Plain.IsEmpty p = false →
  Plain.GetN p key 1 accept = (s ←! Plain.Get p key; Done [s]).
Proof.
  intros Hne. unfold Plain.GetN, Plain.Get. rewrite Hne. simpl.
  destruct (Plain.getKeyFromHash p (uint32 (Plain.hash p key))) as [k| |]; simpl; try done.
  destruct (size (Plain.hashMap p) - 1)%nat; [done|].
  cbn [Plain.GetN_loop]. rewrite bool_decide_eq_false_2; [done|]. simpl. lia.
Qed.

Lemma GetN_one_is_Get_witness :
  Plain.GetN (Plain.Add (Plain.New 1 (Some atoiHash)) ["6"; "1337"; "1236"; "1723"]%string)
             "1237" 1 (Some (λ _ _, false))
  = (s ←! Plain.Get (Plain.Add (Plain.New 1 (Some atoiHash))
                               ["6"; "1337"; "1236"; "1723"]%string) "1237";
     Done [s]).
Proof. apply GetN_one_is_Get. vm_compute. reflexivity. Defined.

(** * Further properties of the packed timestamps *)

Lemma Z_of_byte_range b : 0 ≤ Z_of_byte b < 256.
Proof. unfold Z_of_byte. pose proof (Byte.to_N_bounded b). lia. Qed.

Lemma byte_of_Z_of_byte b : byte_of_Z (Z_of_byte b) = b.
Proof.
  unfold byte_of_Z. rewrite Z.mod_small by apply Z_of_byte_range.
  unfold Z_of_byte. rewrite N2Z.id, Byte.of_to_N. done.
Qed.

Lemma lor_shiftl_low a v : 0 ≤ a < 2 ^ 8 → Z.lor a (v ≪ 8) mod 2 ^ 8 = a.
Proof.
  intros Ha. apply Z.bits_inj'. intros i Hi.
  destruct (decide (i < 8)) as [Hlt|Hge].
  - rewrite Z.mod_pow2_bits_low by lia. rewrite Z.lor_spec, Z.shiftl_spec_low by lia.
    by rewrite orb_false_r.
  - rewrite Z.mod_pow2_bits_high by lia.
    rewrite <- (Z.mod_small a (2 ^ 8)) by done. by rewrite Z.mod_pow2_bits_high by lia.
Qed.

Lemma lor_shiftl_high a v : 0 ≤ a < 2 ^ 8 → Z.lor a (v ≪ 8) ≫ 8 = v.
Proof.
  intros Ha. apply Z.bits_inj'. intros i Hi.
  rewrite Z.shiftr_spec, Z.lor_spec, Z.shiftl_spec by lia.
  rewrite <- (Z.mod_small a (2 ^ 8)) by done.
  rewrite Z.mod_pow2_bits_high by lia. simpl. f_equal. lia.
Qed.

(** Encoding what was decoded gives the bytes back. *)
Lemma le_bytes_le_value bs : le_bytes (length bs) (le_value bs) = bs.
Proof.
  induction bs as [|b bs IH]; [done|]. cbn [length le_value le_bytes].
  pose proof (Z_of_byte_range b) as Hb. change 256 with (2 ^ 8) in Hb.
  rewrite lor_shiftl_high, IH by done. f_equal.
  unfold byte_of_Z. change 256 with (2 ^ 8). rewrite lor_shiftl_low by done.
  rewrite <- (Z.mod_small (Z_of_byte b) 256) by apply Z_of_byte_range.
  apply byte_of_Z_of_byte.
Qed.

Lemma le_value_range bs : 0 ≤ le_value bs < 2 ^ (8 * Z.of_nat (length bs)).
Proof.
  rewrite <- (le_bytes_le_value bs) at 1 2. rewrite le_value_le_bytes.
  apply Z.mod_pos_bound. apply Z.pow_pos_nonneg; lia.
Qed.

Lemma int64_range u : 0 ≤ u < 2 ^ 64 → - 2 ^ 63 ≤ int64 u < 2 ^ 63.
Proof. intros Hu. unfold int64. case_bool_decide; lia. Qed.

Lemma uint64_int64 u : 0 ≤ u < 2 ^ 64 → uint64 (int64 u) = u.
Proof.
  intros Hu. unfold int64, uint64. case_bool_decide.
  - apply Z.mod_small. lia.
  - symmetry. apply (Z.mod_unique _ _ (-1)); lia.
Qed.

(** What [UnpackTimestamp] returns on a slice of at least eight bytes. *)
Lemma UnpackTimestamp_long b :
  (8 ≤ length b)%nat →
  UnpackTimestamp b
    = Done (take (length b - 8) b, int64 (le_value (drop (length b - 8) b)), None).
Proof.
  intros H. unfold UnpackTimestamp, getTimestamp.
  rewrite bool_decide_eq_true_2 by lia. rewrite bool_decide_eq_false_2 by lia.
  unfold binary_Read_int64. rewrite length_drop.
  rewrite bool_decide_eq_false_2 by lia. rewrite bool_decide_eq_false_2 by lia.
  rewrite take_ge by (rewrite length_drop; lia). done.
Qed.

(** [UnpackTimestamp] never panics and never returns an error.  A slice of
    at least eight bytes loses its last eight bytes, and the timestamp is
    those bytes read little-endian as an [int64]: the slice is the result
    followed by the eight little-endian bytes of the timestamp.  A shorter
    slice is returned as it is, with the timestamp 0. *)
Theorem UnpackTimestamp_returns (b : list Byte.byte) :
  ∃ r t, UnpackTimestamp b = Done (r, t, None) ∧
         - 2 ^ 63 ≤ t < 2 ^ 63 ∧
         ((8 ≤ length b)%nat →
            r = take (length b - 8) b ∧
            t = int64 (le_value (drop (length b - 8) b)) ∧
            b = r ++ le_bytes 8 (uint64 t)) ∧
         ((length b < 8)%nat → r = b ∧ t = 0).
Proof.
  destruct (decide (8 ≤ length b)%nat) as [Hlong|Hshort].
  - pose proof (le_value_range (drop (length b - 8) b)) as Hr.
    assert (Hl : length (drop (length b - 8) b) = 8%nat) by (rewrite length_drop; lia).
    rewrite Hl in Hr. change (8 * Z.of_nat 8) with 64 in Hr.
    eexists _, _. split; [by apply UnpackTimestamp_long|]. split; [|split].
    + by apply int64_range.
    + intros _. split; [done|]. split; [done|].
      rewrite uint64_int64 by done.
      rewrite <- Hl at 2. by rewrite le_bytes_le_value, take_drop.
    + intros ?. lia.
  - exists b, 0. unfold UnpackTimestamp. rewrite bool_decide_eq_false_2 by lia.
    split; [done|]. split; [lia|]. split; [intros ?; lia | done].
Qed.

(** Packing what [UnpackTimestamp] split off a slice of at least eight
    bytes gives the slice back. *)
Theorem packTimestamp_UnpackTimestamp (b r : list Byte.byte) (t : Z) :
  (8 ≤ length b)%nat → UnpackTimestamp b = Done (r, t, None) →
  packTimestamp r t = (b, None).
Proof.
  intros Hlen H. rewrite UnpackTimestamp_long in H by done. injection H as <- <-.
  unfold packTimestamp, binary_Write_int64.
  pose proof (le_value_range (drop (length b - 8) b)) as Hr.
  assert (Hl : length (drop (length b - 8) b) = 8%nat) by (rewrite length_drop; lia).
  rewrite Hl in Hr. change (8 * Z.of_nat 8) with 64 in Hr.
  rewrite uint64_int64 by done.
  rewrite <- Hl at 2. rewrite le_bytes_le_value, take_drop. done.
Qed.

Lemma packTimestamp_UnpackTimestamp_witness :
  packTimestamp (String.list_byte_of_string "blahblah1") 100
  = (ByteSlice exampleValue, None).
Proof.
  apply packTimestamp_UnpackTimestamp; [vm_compute; lia | vm_compute; reflexivity].
Defined.

(** The two decoders: on a value of at least eight bytes
    [getTimestampByteView] reads the timestamp that [UnpackTimestamp]
    reads; on a shorter value [UnpackTimestamp] answers timestamp 0 without
    an error, where [getTimestampByteView] reports [io.EOF]. *)
Theorem getTimestampByteView_vs_UnpackTimestamp (bv : ByteView) :
  ((8 ≤ Len bv)%nat →
     ∃ t, getTimestampByteView bv = (t, None) ∧
          UnpackTimestamp (ByteSlice bv) = Done (take (Len bv - 8) (ByteSlice bv), t, None)) ∧
  ((Len bv < 8)%nat →
     getTimestampByteView bv = (0, Some EOF) ∧
     UnpackTimestamp (ByteSlice bv) = Done (ByteSlice bv, 0, None)).
Proof.
  split; intros H.
  - eexists. split; [by apply getTimestampByteView_long|].
    unfold Len in *. by apply UnpackTimestamp_long.
  - split; [by apply getTimestampByteView_short|].
    unfold UnpackTimestamp, Len in *. by rewrite bool_decide_eq_false_2 by lia.
Qed.

(** A view of what [packTimestamp] packed carries the timestamp. *)
Lemma getTimestampByteView_packed (bv : ByteView) (b : list Byte.byte) (ts : Z) :
  - 2 ^ 63 ≤ ts < 2 ^ 63 → ByteSlice bv = (packTimestamp b ts).1 →
  getTimestampByteView bv = (ts, None).
Proof.
  intros Hts Hbv.
  change ((packTimestamp b ts).1) with (b ++ le_bytes 8 (uint64 ts)) in Hbv.
  assert (Hlen : Len bv = (length b + 8)%nat).
  { unfold Len. by rewrite Hbv, length_app, le_bytes_length. }
  rewrite getTimestampByteView_long by lia.
  rewrite Hlen, Hbv. replace (length b + 8 - 8)%nat with (length b) by lia.
  rewrite drop_app_length, le_value_le_bytes. change (8 * Z.of_nat 8) with 64.
  assert (uint64 ts mod 2 ^ 64 = uint64 ts) as ->.
  { unfold uint64. apply Z.mod_mod. lia. }
  by rewrite int64_uint64.
Qed.

Section expiration_more.
Context {World Sink : Type}.
Variable setSinkView : Sink → ByteView → Sink * option error.
Variable AllocatingByteSliceSink : Sink.
Variable view : Sink → ByteView.
Variable loadOnMiss : Group → World → string → Sink → bool → World * Sink * option error.
Variable NowUnixSeconds : World → Z * World.
Variable seconds : Z → Z.
Variable madeDeadline : World → bool.

(** A value that [packTimestamp] stamped [ts], met in the cache at time
    [now] (no 64-bit overflow, stale period not negative): before
    [ts + expiration] it is served as it is; from
    [ts + expiration + stalePeriod] on it is reloaded and the result of the
    reload is returned. *)
Theorem handleExpiration_of_packed (g : Group) (w : World) (key : string) (dest : Sink)
    (bv : ByteView) (b : list Byte.byte) (ts : Z) :
  - 2 ^ 63 ≤ ts < 2 ^ 63 → ByteSlice bv = (packTimestamp b ts).1 →
  0 ≤ seconds (stalePeriod g) →
  - 2 ^ 63 ≤ (NowUnixSeconds w).1 - ts < 2 ^ 63 →
  - 2 ^ 63 ≤ (NowUnixSeconds w).1 - ts - seconds (expiration g) < 2 ^ 63 →
  ((NowUnixSeconds w).1 < ts + seconds (expiration g) →
     handleExpiration setSinkView AllocatingByteSliceSink view loadOnMiss
                      NowUnixSeconds seconds madeDeadline g w key dest bv
       = (((NowUnixSeconds w).2, (setSinkView dest bv).1), (setSinkView dest bv).2)) ∧
  (ts + seconds (expiration g) + seconds (stalePeriod g) ≤ (NowUnixSeconds w).1 →
     handleExpiration setSinkView AllocatingByteSliceSink view loadOnMiss
                      NowUnixSeconds seconds madeDeadline g w key dest bv
       = loadOnMiss g (NowUnixSeconds w).2 key dest true).
Proof.
  intros Hts Hbv Hstale Hage Hoff.
  unfold handleExpiration, GetTime.
  rewrite (getTimestampByteView_packed bv b ts Hts Hbv).
  destruct (NowUnixSeconds w) as [now w1]. simpl in *.
  rewrite (expiredOffset_exact seconds g now ts Hage Hoff). split.
  - intros Hfresh. rewrite bool_decide_eq_false_2 by lia.
    rewrite bool_decide_eq_false_2 by lia. by destruct (setSinkView dest bv).
  - intros Hold. by rewrite bool_decide_eq_true_2 by lia.
Qed.
End expiration_more.

(** [TestExpires]: stamped 100 with expiration 300 s, the value is served
    at 399 and reloaded at 400. *)
Lemma handleExpiration_of_packed_witness :
  ((exampleNow [400; 401]).1 < 100 + exampleSeconds (expiration (mkGroup 300000000000 0 0)) →
     exampleHandle "foofoo1" true (mkGroup 300000000000 0 0) [400; 401] "testKey1" None
                   exampleValue
       = (((exampleNow [400; 401]).2, (exampleSetSinkView None exampleValue).1),
          (exampleSetSinkView None exampleValue).2)) ∧
  (100 + exampleSeconds (expiration (mkGroup 300000000000 0 0))
     + exampleSeconds (stalePeriod (mkGroup 300000000000 0 0)) ≤ (exampleNow [400; 401]).1 →
     exampleHandle "foofoo1" true (mkGroup 300000000000 0 0) [400; 401] "testKey1" None
                   exampleValue
       = exampleLoad "foofoo1" (mkGroup 300000000000 0 0) (exampleNow [400; 401]).2
                     "testKey1" None true).
Proof.
  apply (handleExpiration_of_packed exampleSetSinkView None exampleView
           (exampleLoad "foofoo1") exampleNow exampleSeconds (λ _, true)
           (mkGroup 300000000000 0 0) [400; 401] "testKey1" None exampleValue
           (String.list_byte_of_string "blahblah1") 100).
  - lia.
  - reflexivity.
  - vm_compute. discriminate.
  - vm_compute. split; [discriminate | reflexivity].
  - vm_compute. split; [discriminate | reflexivity].
Defined.

(** * Further properties of the pools *)

Lemma Add_New_Get_member r fn ps ring key :
  Add (New r fn) ps = Done ring →
  ∃ name, Get ring key = Done name ∧ name ∈ ps.
Proof.
  intros HAdd.
  destruct (AddAll_Get_member r defaultHashExpansion fn [ps] ring key) as (name & HGet & Hin).
  - simpl. unfold New in HAdd. by rewrite HAdd.
  - by apply Add_nonempty in HAdd.
  - exists name. split; [done|]. simpl in Hin. by rewrite app_nil_r in Hin.
Qed.

Lemma Add_New_returns r fn ps :
  1 ≤ r → ps ≠ [] → ∃ ring, Add (New r fn) ps = Done ring ∧ keys ring ≠ [].
Proof.
  intros Hr Hps.
  assert (Hne : keys_after (New r fn) ps ≠ []).
  { unfold keys_after. rewrite sort_Ints_nil. simpl. intros E.
    apply fmap_nil_inv in E.
    by apply (vnodes_nonempty (default ChecksumIEEE fn) r) in Hps. }
  destruct (Add_Done (New r fn) ps) as (ring & HAdd & _ & _ & _ & Hk & _);
    [constructor | done | done |].
  exists ring. split; [done|]. by rewrite Hk.
Qed.

Lemma getters_lookup (ps : list string) (gs : gmap string getter) peer :
  peer ∈ ps →
  foldl (λ gs peer, <[peer := mkGetter peer]> gs) gs ps !! peer = Some (mkGetter peer).
Proof.
  revert gs. induction ps as [|q ps IH]; intros gs Hin; simpl.
  - by apply elem_of_nil in Hin.
  - destruct (decide (peer ∈ ps)) as [Hps|Hps]; [by apply IH|].
    apply elem_of_cons in Hin as [->|?]; [|done].
    assert (∀ gs' : gmap string getter, gs' !! q = Some (mkGetter q) →
              foldl (λ gs peer, <[peer := mkGetter peer]> gs) gs' ps !! q
                = Some (mkGetter q)) as Hkeep.
    { clear IH. induction ps as [|q' ps IH']; intros gs' Hq; simpl; [done|].
      apply not_elem_of_cons in Hps as [Hne Hps]. apply IH'; [done|].
      by rewrite lookup_insert_ne. }
    apply Hkeep. apply lookup_insert_eq.
Qed.

(** The gRPC pool of a process.  The first [NewPoolOpts] (flag [poolMode]
    not set, no picker registered) returns a pool and sets the flag, so that
    every later [NewPoolOpts] panics.  When the options give at least one
    replica, the first [Set] of that pool with at least one peer returns,
    and [PickPeer] then answers every key either with "local" or with the
    getter of a peer of the list other than the pool itself, never with a
    nil handle. *)
Theorem PickPeer_after_first_Set (st : process) (me : string) (opts : list PoolOption)
    (ps : list string) :
  poolMode st = false → portPicker st = false →
  1 ≤ config_replicas (applyOptions opts) → ps ≠ [] →
  ∃ st' p g,
    NewPoolOpts st me opts = Done (st', p) ∧
    (∀ me' opts', NewPoolOpts st' me' opts' = Panics) ∧
    Set_ p ps = Done g ∧
    ∀ key, PickPeer g key = Done (None, false) ∨
           ∃ peer, peer ∈ ps ∧ peer ≠ me ∧
                   PickPeer g key = Done (Some (mkGetter peer), true).
Proof.
  intros Hmode Hpicker Hr Hps.
  destruct (Add_New_returns _ (config_hashFn (applyOptions opts)) ps Hr Hps)
    as (ring & HAdd & Hne).
  eexists _, _, _. split_and!.
  - unfold NewPoolOpts, RegisterPeerPicker. rewrite Hmode. cbn. rewrite Hpicker. cbn.
    reflexivity.
  - intros me' opts'. reflexivity.
  - unfold Set_. cbn. rewrite HAdd. cbn. reflexivity.
  - intros key. unfold PickPeer, IsEmpty. cbn.
    rewrite bool_decide_eq_false_2.
    2:{ intros H. by apply length_zero_iff_nil in H. }
    destruct (Add_New_Get_member _ _ ps ring key HAdd) as (name & -> & Hin). cbn.
    case_bool_decide as Hself; [|by left].
    right. exists name. split_and!; [done | done |].
    by rewrite getters_lookup.
Qed.

(** A process that calls [NewPool] once and sets two peers, itself among
    them. *)
Lemma PickPeer_after_first_Set_witness :
  ∃ st' p g,
    NewPoolOpts freshProcess "10.0.0.1:8080" [WithReplicas 50] = Done (st', p) ∧
    (∀ me' opts', NewPoolOpts st' me' opts' = Panics) ∧
    Set_ p ["10.0.0.1:8080"; "10.0.0.2:8080"]%string = Done g ∧
    ∀ key, PickPeer g key = Done (None, false) ∨
           ∃ peer, peer ∈ ["10.0.0.1:8080"; "10.0.0.2:8080"]%string ∧
                   peer ≠ "10.0.0.1:8080"%string ∧
                   PickPeer g key = Done (Some (mkGetter peer), true).
Proof.
  apply (PickPeer_after_first_Set freshProcess "10.0.0.1:8080" [WithReplicas 50]);
    [reflexivity | reflexivity | cbn; lia | done].
Defined.

(** [HTTPPool.Set] builds a new ring each time: it panics on an empty list
    of peers (the new ring has no hash for the table build to start from),
    and otherwise returns a pool whose ring holds the given peers alone,
    whatever the pool held before. *)
Theorem HTTP_Set_replaces_ring (p : HTTP.HTTPPool) (ps : list string) :
  (ps = [] → HTTP.Set_ p ps = Panics) ∧
  (ps ≠ [] →
     ∃ p', HTTP.Set_ p ps = Done p' ∧
           HTTP.basePath p' = HTTP.basePath p ∧ HTTP.self p' = HTTP.self p ∧
           IsEmpty (HTTP.peers p') = false ∧
           Add (New HTTP.defaultReplicas None) ps = Done (HTTP.peers p')).
Proof.
  split.
  - intros ->. unfold HTTP.Set_. cbv zeta. by rewrite Add_Panics.
  - intros Hps. unfold HTTP.Set_. cbv zeta.
    destruct (Add_New_returns HTTP.defaultReplicas None ps) as (ring & HAdd & Hne);
      [done | done |].
    rewrite HAdd. simpl. eexists. split; [done|]. simpl. split_and!; try done.
    unfold IsEmpty. apply bool_decide_eq_false_2. intros H.
    by apply length_zero_iff_nil in H.
Qed.

(** After [HTTPPool.Set(peers...)], [PickPeer] answers every key either
    with "local" or with a getter whose base URL is a peer of that list,
    other than the pool itself, followed by the base path; peers of
    earlier lists are never picked. *)
Theorem HTTP_PickPeer_after_Set (p p' : HTTP.HTTPPool) (ps : list string) (key : string) :
  HTTP.Set_ p ps = Done p' →
  HTTP.PickPeer p' key = Done (None, false) ∨
  ∃ peer, peer ∈ ps ∧ peer ≠ HTTP.self p ∧
          HTTP.PickPeer p' key
            = Done (Some (HTTP.mkHttpGetter (peer +:+ HTTP.basePath p)), true).
Proof.
  unfold HTTP.Set_. cbv zeta. intros H.
  apply obind_Done in H as (ring & HAdd & [= <-]).
  unfold HTTP.PickPeer, IsEmpty. simpl.
  rewrite bool_decide_eq_false_2.
  2:{ intros H. apply length_zero_iff_nil in H. by apply Add_nonempty in HAdd. }
  destruct (Add_New_Get_member _ _ ps ring key HAdd) as (name & -> & Hin). simpl.
  case_bool_decide as Hself; [|by left].
  right. exists name. done.
Qed.

Lemma exampleHTTPPool_Set :
  HTTP.Set_ (HTTP.mkHTTPPool HTTP.defaultBasePath "http://a" (New HTTP.defaultReplicas None))
            ["http://a"; "http://b"]%string = Done exampleHTTPPool.
Proof.
  destruct (Add_New_returns HTTP.defaultReplicas None ["http://a"; "http://b"]%string)
    as (ring & HAdd & _); [done | done |].
  unfold exampleHTTPPool, HTTP.Set_. cbv zeta. by rewrite HAdd.
Qed.

Lemma HTTP_PickPeer_after_Set_witness :
  HTTP.PickPeer exampleHTTPPool "key" = Done (None, false) ∨
  ∃ peer, peer ∈ ["http://a"; "http://b"]%string ∧ peer ≠ "http://a"%string ∧
          HTTP.PickPeer exampleHTTPPool "key"
            = Done (Some (HTTP.mkHttpGetter (peer +:+ "/_groupcache/")), true).
Proof.
  apply (HTTP_PickPeer_after_Set
           (HTTP.mkHTTPPool HTTP.defaultBasePath "http://a" (New HTTP.defaultReplicas None))
           exampleHTTPPool ["http://a"; "http://b"]%string "key").
  apply exampleHTTPPool_Set.
Defined.

(** ** Request routing of the HTTP pool *)

Lemma prefix_app (a b : string) : String.prefix a (a +:+ b) = true.
Proof.
  induction a as [|c a IH]; simpl; [by destruct b|].
  destruct (Ascii.ascii_dec c c); [done|congruence].
Qed.

Lemma string_from_app (a b : string) : HTTP.string_from (String.length a) (a +:+ b) = b.
Proof. induction a as [|c a IH]; simpl; [by destruct b | done]. Qed.

Lemma cut_slash_None (s : string) :
  HTTP.slash ∉ String.list_ascii_of_string s → HTTP.cut_slash s = None.
Proof.
  induction s as [|c s IH]; cbn [HTTP.cut_slash String.list_ascii_of_string]; [done|].
  intros Hnot. apply not_elem_of_cons in Hnot as [Hc Hs].
  case_bool_decide; [congruence|]. by rewrite IH.
Qed.

Lemma cut_slash_app (a b : string) :
  HTTP.slash ∉ String.list_ascii_of_string a →
  HTTP.cut_slash (a +:+ String HTTP.slash b) = Some (a, b).
Proof.
  induction a as [|c a IH]; intros Hnot.
  - change (HTTP.cut_slash (String HTTP.slash b) = Some (EmptyString, b)).
    cbn [HTTP.cut_slash]. by case_bool_decide.
  - change (HTTP.cut_slash (String c (a +:+ String HTTP.slash b)) = Some (String c a, b)).
    cbn [HTTP.cut_slash String.list_ascii_of_string] in *.
    apply not_elem_of_cons in Hnot as [Hc Hs].
    case_bool_decide; [congruence|]. by rewrite IH.
Qed.

Section serve_more.
Context {World Grp : Type}.
Variable GetGroup : string → option Grp.
Variable addServerRequest : Grp → World → World.
Variable groupGet : Grp → World → string → World * list Byte.byte * option error.
Variable Marshal : list Byte.byte → list Byte.byte * option error.
Variable errorString : error → string.

Local Abbreviation serve :=
  (HTTP.ServeHTTP GetGroup addServerRequest groupGet Marshal errorString).

(** How [ServeHTTP] routes a request path.  A path without the base path
    panics.  After the base path, the text up to the first "/" is the group
    name and everything behind it, further "/" included, is the key: with
    no "/" at all the answer is 400 and nothing is looked up; an unknown
    group gives 404 naming the group; a failed [Get] gives 500 with the
    error's text; otherwise the marshalled value is sent as
    application/x-protobuf.  The group's request counter is stepped exactly
    when the group exists. *)
Theorem ServeHTTP_routes (p : HTTP.HTTPPool) (w : World) :
  (∀ path, String.prefix (HTTP.basePath p) path = false → serve p w path = Panics) ∧
  (∀ rest, HTTP.slash ∉ String.list_ascii_of_string rest →
     serve p w (HTTP.basePath p +:+ rest) = Done (w, HTTP.HttpError "bad request" 400)) ∧
  (∀ group key, HTTP.slash ∉ String.list_ascii_of_string group →
     GetGroup group = None →
     serve p w (HTTP.basePath p +:+ group +:+ "/" +:+ key)
       = Done (w, HTTP.HttpError ("no such group: " +:+ group) 404)) ∧
  (∀ group key g w2 value e, HTTP.slash ∉ String.list_ascii_of_string group →
     GetGroup group = Some g →
     groupGet g (addServerRequest g w) key = (w2, value, Some e) →
     serve p w (HTTP.basePath p +:+ group +:+ "/" +:+ key)
       = Done (w2, HTTP.HttpError (errorString e) 500)) ∧
  (∀ group key g w2 value body, HTTP.slash ∉ String.list_ascii_of_string group →
     GetGroup group = Some g →
     groupGet g (addServerRequest g w) key = (w2, value, None) →
     Marshal value = (body, None) →
     serve p w (HTTP.basePath p +:+ group +:+ "/" +:+ key)
       = Done (w2, HTTP.Body "application/x-protobuf" body)).
Proof.
  assert (Hparse : ∀ group key, HTTP.slash ∉ String.list_ascii_of_string group →
            HTTP.SplitN_slash_2
              (HTTP.string_from (String.length (HTTP.basePath p))
                 (HTTP.basePath p +:+ group +:+ "/" +:+ key)) = [group; key]).
  { intros group key Hg. rewrite string_from_app. unfold HTTP.SplitN_slash_2.
    change ("/" +:+ key) with (String HTTP.slash key). by rewrite cut_slash_app. }
  split_and!.
  - intros path Hpre. unfold HTTP.ServeHTTP. by rewrite Hpre.
  - intros rest Hrest. unfold HTTP.ServeHTTP. rewrite prefix_app. simpl negb. cbv iota.
    rewrite string_from_app. unfold HTTP.SplitN_slash_2. by rewrite cut_slash_None.
  - intros group key Hg Hnone. unfold HTTP.ServeHTTP. rewrite prefix_app. simpl negb.
    cbv iota. rewrite Hparse by done. cbv zeta. by rewrite Hnone.
  - intros group key g w2 value e Hg Hsome Hget. unfold HTTP.ServeHTTP.
    rewrite prefix_app. simpl negb. cbv iota. rewrite Hparse by done. cbv zeta.
    rewrite Hsome, Hget. done.
  - intros group key g w2 value body Hg Hsome Hget Hm. unfold HTTP.ServeHTTP.
    rewrite prefix_app. simpl negb. cbv iota. rewrite Hparse by done. cbv zeta.
    rewrite Hsome, Hget, Hm. done.
Qed.

End serve_more.
